(** * FlexBI analytics backend: chunked upload, status store, result cache

    A shallow embedding of the ingestion core of [server.py]:
    - [AdvancedCache]  : the time-boxed, bounded result cache (class AdvancedCache);
    - [ChunkStore]     : the chunk upload endpoint [upload_file_chunk];
    - [Status]         : the processing records and the writes made to them;
    - [JsonLines]      : the JSON-Lines reader [_stream_large_json];
    - [Pipeline]       : [process_large_file] with the parsers it drives, as the
                         writes they make to a record, and [cancel_processing];
    - [ProgressStream] : the server-sent-event endpoint [stream_processing_progress];
    - [ConnectionManager], [PerformanceMonitor] : the WebSocket registry and
                         the request monitor with [track_performance];
    - [CacheEdges], [ChunkEdges], [PipelineOutcome], [JsonLinesCounts],
      [StreamWait]     : the cache, the chunk endpoint, the pipeline, the
                         JSON-Lines reader and the stream at their edges;
    - [Intake]         : [validate_file], the estimate and the status endpoint;
    - [JsonStore], [Hyperlocal] : the JSON files with their cache, the
                         dashboard, alert and location endpoints, and
                         [get_hyperlocal_data_internal];
    - [Forecast]       : [forecast_data] with [_run_forecast_sync].

    Conventions.  A Python dict is a [gmap]; a clock reading ([time.time()]) is
    an explicit argument (an integer number of ticks for the cache, whose
    arithmetic is unit-free, a rational number of seconds where the code
    compares with 600 seconds); a float computed from integers is the
    rational it approximates; an operation that can raise returns a sum or
    an option; a loop that may spin takes fuel and returns [None] when the
    fuel runs out; what a library call does (pandas, json, the file system)
    is an argument of the model. *)

From Stdlib Require Import ZArith QArith Qround Lia Lqa.
From stdpp Require Import gmap strings list fin_maps.

Local Open Scope Z_scope.

(** ** The result cache (server.py, class AdvancedCache) *)

Module AdvancedCache.

(** [self.cache] maps a key to [(data, timestamp)]; [self.access_times] is the
    deque of [(key, timestamp)] in insertion order.  [self.lock] is a re-entrant
    lock held around each of [get] and [set]: the operations are atomic and are
    modelled as functions on the state. *)
Record t (V : Type) : Type := Cache {
  cache : gmap string (V * Z);
  access_times : list (string * Z);
  max_size : Z;
  ttl : Z
}.
Arguments Cache {V} _ _ _ _.
Arguments cache {V} _.
Arguments access_times {V} _.
Arguments max_size {V} _.
Arguments ttl {V} _.

Section ops.
Context {V : Type}.
Implicit Types (c : t V) (key : string) (value : V).

(** [def __init__(self, max_size=1000, ttl=300)] *)
Definition __init__ (max_size ttl : Z) : t V := Cache ∅ [] max_size ttl.

Definition with_cache c (m : gmap string (V * Z)) : t V :=
  Cache m (access_times c) (max_size c) (ttl c).

(** [def get(self, key)], with [now] the reading of [time.time()]. *)
Definition get c key (now : Z) : option V * t V :=
  match cache c !! key with
  | Some (data, timestamp) =>
      if decide (now - timestamp < ttl c) then (Some data, c)
      else (None, with_cache c (delete key (cache c)))
  | None => (None, c)
  end.

(** [len(self.cache) > self.max_size * 0.8].  The product is a float; for an
    integer length [n] the comparison [n > 0.8 * m] is [4 * m < 5 * n], which is
    how it is written here. *)
Definition over_watermark c : bool :=
  bool_decide (4 * max_size c < 5 * Z.of_nat (size (cache c))).

(** One iteration of the body of the [while] loop of [_cleanup]:
    [if self.access_times: old_key, _ = self.access_times.popleft();
     if old_key in self.cache: del self.cache[old_key]]. *)
Definition popleft c : t V :=
  match access_times c with
  | [] => c
  | (old_key, _) :: rest => Cache (delete old_key (cache c)) rest (max_size c) (ttl c)
  end.

(** [while len(self.cache) > self.max_size * 0.8: ...].  With an empty deque the
    body changes nothing and the loop spins: the fuel runs out. *)
Fixpoint evict (fuel : nat) c : option (t V) :=
  if over_watermark c then
    match fuel with
    | O => None
    | S fuel' => evict fuel' (popleft c)
    end
  else Some c.

(** [expired_keys = [k for k, (_, t) in self.cache.items() if current_time - t > self.ttl]] *)
Definition expired_keys c (current_time : Z) : list string :=
  (filter (λ kv : string * (V * Z), ttl c < current_time - kv.2.2) (map_to_list (cache c))).*1.

(** [for k in expired_keys: del self.cache[k]] *)
Definition drop_expired c (current_time : Z) : t V :=
  with_cache c (foldr delete (cache c) (expired_keys c current_time)).

(** [def _cleanup(self)], with [current_time] its own reading of the clock. *)
Definition _cleanup (fuel : nat) c (current_time : Z) : option (t V) :=
  evict fuel (drop_expired c current_time).

(** The state after the two assignments of [set], before the size test. *)
Definition store c key value (current_time : Z) : t V :=
  Cache (<[key := (value, current_time)]> (cache c))
        (access_times c ++ [(key, current_time)]) (max_size c) (ttl c).

(** [def set(self, key, value)]: [current_time] is the clock read by [set],
    [cleanup_time] the one read by [_cleanup] when it runs. *)
Definition set (fuel : nat) c key value (current_time cleanup_time : Z) : option (t V) :=
  let c1 := store c key value current_time in
  if decide (max_size c1 < Z.of_nat (size (cache c1)))
  then _cleanup fuel c1 cleanup_time
  else Some c1.

(** Every key of the map has an entry in the insertion-order queue. *)
Definition queue_covers c : Prop :=
  ∀ k, is_Some (cache c !! k) → k ∈ (access_times c).*1.

(** Popping the first [n] entries of the queue, as [n] iterations of the loop do. *)
Definition evict_n (n : nat) c : t V := Nat.iter n popleft c.


End ops.

Section facts.
Context {V : Type}.
Implicit Types (c : t V) (key k : string) (value v : V).

Lemma elem_of_expired_keys c now k :
  k ∈ expired_keys c now ↔ ∃ v ts, cache c !! k = Some (v, ts) ∧ ttl c < now - ts.
Proof.
  unfold expired_keys. rewrite list_elem_of_fmap. split.
  - intros [[k' [v ts]] [-> [Hexp Hin]%list_elem_of_filter]].
    apply elem_of_map_to_list in Hin. simpl in *. eauto.
  - intros (v & ts & Hk & Hexp). exists (k, (v, ts)). split; [done|].
    apply list_elem_of_filter. split; [done|]. by apply elem_of_map_to_list.
Qed.

Lemma lookup_drop_expired c now k :
  cache (drop_expired c now) !! k =
    match cache c !! k with
    | Some (v, ts) => if decide (ttl c < now - ts) then None else Some (v, ts)
    | None => None
    end.
Proof.
  unfold drop_expired. simpl.
  destruct (decide (k ∈ expired_keys c now)) as [Hin|Hnin].
  - rewrite lookup_foldr_delete by done.
    apply elem_of_expired_keys in Hin as (v & ts & -> & Hexp).
    by rewrite decide_True.
  - rewrite lookup_foldr_delete_not_elem_of by done.
    destruct (cache c !! k) as [[v ts]|] eqn:Hk; [|done].
    case_decide as Hexp; [|done].
    exfalso. apply Hnin, elem_of_expired_keys. eauto.
Qed.


Lemma drop_expired_subseteq c now : cache (drop_expired c now) ⊆ cache c.
Proof.
  apply map_subseteq_spec. intros k x. rewrite lookup_drop_expired.
  destruct (cache c !! k) as [[v ts]|]; [|done]. by case_decide.
Qed.



Lemma evict_n_succ n c : evict_n (S n) c = evict_n n (popleft c).
Proof. apply Nat.iter_succ_r. Qed.

Lemma popleft_params c :
  max_size (popleft c) = max_size c ∧ ttl (popleft c) = ttl c.
Proof. unfold popleft. by destruct (access_times c) as [|[??] ?]. Qed.

Lemma evict_n_params n c :
  max_size (evict_n n c) = max_size c ∧ ttl (evict_n n c) = ttl c.
Proof.
  induction n as [|n IH]; [done|]. unfold evict_n in *. simpl.
  destruct (popleft_params (Nat.iter n popleft c)). destruct IH. split; congruence.
Qed.



(** *** The queue invariant *)

Lemma queue_covers_init m ttl : queue_covers (__init__ (V:=V) m ttl).
Proof. intros k [x Hx]. simpl in Hx. by rewrite lookup_empty in Hx. Qed.

Lemma queue_covers_subseteq c (m : gmap string (V * Z)) :
  m ⊆ cache c → queue_covers c → queue_covers (with_cache c m).
Proof.
  intros Hsub Hinv k Hk. simpl in *. apply Hinv.
  by eapply lookup_weaken_is_Some.
Qed.

Lemma queue_covers_get c key now : queue_covers c → queue_covers (get c key now).2.
Proof.
  intros Hinv. unfold get. destruct (cache c !! key) as [[data ts]|]; [|done].
  case_decide; [done|]. simpl.
  apply queue_covers_subseteq; [apply delete_subseteq | done].
Qed.

Lemma queue_covers_store c key value now :
  queue_covers c → queue_covers (store c key value now).
Proof.
  intros Hinv k. unfold store. simpl. rewrite fmap_app, elem_of_app.
  destruct (decide (k = key)) as [->|Hne].
  - intros _. right. simpl. apply list_elem_of_singleton. done.
  - rewrite lookup_insert_ne by done. intros Hk. left. by apply Hinv.
Qed.

Lemma queue_covers_drop_expired c now :
  queue_covers c → queue_covers (drop_expired c now).
Proof.
  intros Hinv. apply queue_covers_subseteq; [|done].
  apply (drop_expired_subseteq c now).
Qed.

Lemma queue_covers_popleft c : queue_covers c → queue_covers (popleft c).
Proof.
  intros Hinv k. unfold popleft.
  destruct (access_times c) as [|[k0 ts] rest] eqn:Hq; [apply Hinv|].
  simpl. intros Hk. apply lookup_delete_is_Some in Hk as [Hne Hk].
  specialize (Hinv k Hk). rewrite Hq in Hinv. simpl in Hinv.
  apply elem_of_cons in Hinv as [?|?]; [congruence|done].
Qed.

Lemma queue_covers_evict_n n c : queue_covers c → queue_covers (evict_n n c).
Proof.
  intros Hinv. induction n as [|n IH]; [done|].
  unfold evict_n in *. simpl. by apply queue_covers_popleft.
Qed.

(** With a covering queue an empty queue means an empty map. *)
Lemma queue_covers_nil c :
  queue_covers c → access_times c = [] → size (cache c) = 0%nat.
Proof.
  intros Hinv Hq. apply map_size_empty_iff, map_empty. intros k.
  destruct (cache c !! k) eqn:Hk; [|done].
  assert (k ∈ (access_times c).*1) as Hin by (apply Hinv; eauto).
  rewrite Hq in Hin. by apply elem_of_nil in Hin.
Qed.

(** *** The eviction loop *)

(** The loop stops after the least number [n] of iterations that brings the
    map to the watermark, once the fuel covers the queue. *)
Lemma evict_terminates fuel c :
  queue_covers c → 0 ≤ max_size c → (length (access_times c) ≤ fuel)%nat →
  ∃ n, (n ≤ length (access_times c))%nat ∧
       evict fuel c = Some (evict_n n c) ∧
       over_watermark (evict_n n c) = false ∧
       ∀ m, (m < n)%nat → over_watermark (evict_n m c) = true.
Proof.
  revert c. induction fuel as [|fuel IH]; intros c Hinv Hmax Hlen.
  - exists 0%nat. assert (access_times c = []) as Hq
      by (destruct (access_times c); [done|simpl in Hlen; lia]).
    assert (over_watermark c = false) as Hw.
    { unfold over_watermark. apply bool_decide_eq_false.
      rewrite (queue_covers_nil c Hinv Hq). lia. }
    split_and!; [lia| by simpl; rewrite Hw | done | intros; lia].
  - simpl. destruct (over_watermark c) eqn:Hw.
    + destruct (access_times c) as [|[k ts] rest] eqn:Hq.
      { exfalso. unfold over_watermark in Hw. apply bool_decide_eq_true in Hw.
        rewrite (queue_covers_nil c Hinv Hq) in Hw. lia. }
      destruct (IH (popleft c)) as (n & Hn & Hev & Hstop & Hmin).
      * by apply queue_covers_popleft.
      * by destruct (popleft_params c) as [-> _].
      * unfold popleft. rewrite Hq. simpl in *. lia.
      * exists (S n). rewrite evict_n_succ. split_and!; [|done|done|].
        -- unfold popleft in Hn. rewrite Hq in Hn. simpl in *. lia.
        -- intros [|m] Hm; [done|]. rewrite evict_n_succ. apply Hmin. lia.
    + exists 0%nat. split_and!; [lia|done|done|intros; lia].
Qed.

(** Without the invariant the loop can spin: an empty queue under a map that
    is over the watermark exhausts any fuel. *)
Lemma evict_spins fuel c :
  access_times c = [] → over_watermark c = true → evict fuel c = None.
Proof.
  intros Hq Hw. induction fuel as [|fuel IH]; simpl; rewrite Hw; [done|].
  unfold popleft. rewrite Hq. exact IH.
Qed.




Lemma get_params c key now :
  max_size (get c key now).2 = max_size c ∧ ttl (get c key now).2 = ttl c.
Proof.
  unfold get. destruct (cache c !! key) as [[data ts]|]; [|done].
  by case_decide.
Qed.



(** C9.  The empty cache has a covering queue; [get], the cleanup pass and
    [set] keep the queue covering; and from a covering queue, with a
    non-negative [max_size], the eviction loop of the cleanup pass stops (the
    fuel only has to cover the queue) at or below the watermark. *)
Theorem queue_covers_preserved c :
  queue_covers c → 0 ≤ max_size c →
  (∀ m t, queue_covers (__init__ (V:=V) m t)) ∧
  (∀ key now, queue_covers (get c key now).2) ∧
  (∀ fuel now, (length (access_times c) ≤ fuel)%nat →
     ∃ c', _cleanup fuel c now = Some c' ∧ queue_covers c' ∧
           5 * Z.of_nat (size (cache c')) ≤ 4 * max_size c) ∧
  (∀ fuel key value now now', (length (access_times c) < fuel)%nat →
     ∃ c', set fuel c key value now now' = Some c' ∧ queue_covers c').
Proof.
  intros Hinv Hmax. split_and!.
  - intros. apply queue_covers_init.
  - intros. by apply queue_covers_get.
  - intros fuel now Hfuel. unfold _cleanup.
    destruct (evict_terminates fuel (drop_expired c now)) as (n & _ & Hev & Hstop & _);
      [by apply queue_covers_drop_expired|done|done|].
    eexists. split_and!; [done| |].
    + by apply queue_covers_evict_n, queue_covers_drop_expired.
    + unfold over_watermark in Hstop. apply bool_decide_eq_false in Hstop.
      destruct (evict_n_params n (drop_expired c now)) as [Hm _].
      rewrite Hm in Hstop. simpl in Hstop. lia.
  - intros fuel key value now now' Hfuel. unfold set, _cleanup. case_decide.
    + destruct (evict_terminates fuel (drop_expired (store c key value now) now'))
        as (n & _ & Hev & _ & _).
      * by apply queue_covers_drop_expired, queue_covers_store.
      * done.
      * simpl. rewrite length_app. simpl. lia.
      * eexists. split; [done|].
        by apply queue_covers_evict_n, queue_covers_drop_expired, queue_covers_store.
    + eexists. split; [done|]. by apply queue_covers_store.
Qed.


End facts.

(** *** Concrete runs *)



(** A cache of at most two entries holding [a] and [b]. *)
Definition two_entries : t Z := store (store (__init__ 2 600) "a" 1 0) "b" 2 1.

Lemma two_entries_covered : queue_covers two_entries.
Proof. do 2 apply queue_covers_store. apply queue_covers_init. Qed.



Lemma queue_covers_preserved_witness :
  queue_covers two_entries ∧ 0 ≤ max_size two_entries ∧
  queue_covers (get two_entries "a" 700).2 ∧
  ∃ c', set 5 two_entries "c" 3 2 2 = Some c' ∧ queue_covers c'.
Proof.
  assert (0 ≤ max_size two_entries) as Hmax by (vm_compute; discriminate).
  destruct (queue_covers_preserved two_entries two_entries_covered Hmax)
    as (_ & Hget & _ & Hset).
  split_and!; [apply two_entries_covered | done | apply Hget |].
  apply Hset. simpl. lia.
Defined.


End AdvancedCache.

(** ** The chunk store (server.py, [upload_file_chunk]) *)

Module ChunkStore.

Abbreviation bytes := (list Byte.byte).

(** The part of the file system the endpoint touches, below [TEMP_DIR]:
    - [chunk_dirs] : the staging directories [TEMP_DIR/chunks/<file_id>/]; each
      holds the files [chunk_<index>], keyed here by the index itself (the name
      [f"chunk_{i:04d}"] determines [i], and the endpoint writes no other file
      there, so [glob("chunk_*")] lists the whole directory);
    - [temp_files] : the assembled files [TEMP_DIR/<filename>].
    File names are plain names: a [filename] is not taken to be the name of
    the [chunks] directory. *)
Record fs : Type := Fs {
  chunk_dirs : gmap string (gmap Z bytes);
  temp_files : gmap string bytes
}.

Definition empty_fs : fs := Fs ∅ ∅.

(** The two JSON bodies the endpoint returns. *)
Inductive response : Type :=
| Complete (message file_path : string) (ready_for_processing : bool)
| ChunkReceived (chunk_index total_chunks uploaded_chunks : Z) (progress : Q).

(** [raise HTTPException(status_code=500, detail=...)] of the [except] clause. *)
Inductive result : Type :=
| Ok (r : response)
| Http500 (detail : string).

(** The form fields of one call, with the bytes of the uploaded part. *)
Record request : Type := Request {
  content : bytes;
  chunk_index : Z;
  total_chunks : Z;
  file_id : string;
  filename : string
}.

(** [str(TEMP_DIR / filename)] *)
Definition final_file_path (TEMP_DIR filename : string) : string :=
  TEMP_DIR +:+ "/" +:+ filename.

(** [chunk_dir.mkdir(parents=True, exist_ok=True)] then the listing of it. *)
Definition staged (st : fs) (id : string) : gmap Z bytes :=
  default ∅ (chunk_dirs st !! id).

(** [(uploaded_chunks / total_chunks) * 100], a float in the source, as a
    rational. *)
Definition progress_of (uploaded_chunks total_chunks : Z) : Q :=
  (inject_Z uploaded_chunks / inject_Z total_chunks * 100)%Q.

(** The loop [for i in range(total_chunks)] that copies [chunk_<i>] to the
    final file: [inl] the bytes written when every chunk was read, [inr] the
    bytes written before a chunk file was found missing. *)
Fixpoint copy_chunks (dir : gmap Z bytes) (indices : list Z) (written : bytes)
  : bytes + bytes :=
  match indices with
  | [] => inl written
  | i :: rest =>
      match dir !! i with
      | Some chunk_data => copy_chunks dir rest (written ++ chunk_data)
      | None => inr written
      end
  end.

Section endpoint.
Variable TEMP_DIR : string.

(** [async def upload_file_chunk(chunk, chunk_index, total_chunks, file_id,
    filename)], one call run from start to end with no other call in between. *)
Definition upload_file_chunk (st : fs) (rq : request) : fs * result :=
  let dir := <[chunk_index rq := content rq]> (staged st (file_id rq)) in
  let dirs := <[file_id rq := dir]> (chunk_dirs st) in
  let uploaded_chunks := Z.of_nat (size dir) in
  if decide (uploaded_chunks = total_chunks rq) then
    match copy_chunks dir (seqZ 0 (total_chunks rq)) [] with
    | inl data =>
        (Fs (delete (file_id rq) dirs) (<[filename rq := data]> (temp_files st)),
         Ok (Complete "All chunks uploaded and file assembled"
                      (final_file_path TEMP_DIR (filename rq)) true))
    | inr partial =>
        (Fs dirs (<[filename rq := partial]> (temp_files st)),
         Http500 "Chunk upload error: no such file")
    end
  else if decide (total_chunks rq = 0) then
    (Fs dirs (temp_files st), Http500 "Chunk upload error: division by zero")
  else
    (Fs dirs (temp_files st),
     Ok (ChunkReceived (chunk_index rq) (total_chunks rq) uploaded_chunks
                       (progress_of uploaded_chunks (total_chunks rq)))).

(** A client sending requests one after the other. *)
Fixpoint upload_all (st : fs) (rqs : list request) : fs * list result :=
  match rqs with
  | [] => (st, [])
  | rq :: rest =>
      let '(st1, r) := upload_file_chunk st rq in
      let '(st2, rs) := upload_all st1 rest in
      (st2, r :: rs)
  end.

End endpoint.

(** *** Interleaved calls

    The endpoint is a coroutine: between two [await]s it runs alone, at an
    [await] another call may run.  A call is cut here into the blocks
    - [Persist] : create the directory and write the chunk file;
    - [Check]   : count the chunk files and either answer or open the final
                  file for writing (which empties it);
    - [Copy]    : one turn of the [for] loop per step, then close the final
                  file, remove the directory and answer.
    The [await]s inside one block are not modelled, so every run of this
    model is a run of the endpoint; the converse does not hold. *)
Inductive pc : Type :=
| Persist
| Check
| Copy (indices : list Z) (offset : nat)
| Finished (r : result).

(** A write of [data] through a handle positioned at [offset]. *)
Definition write_at (old : bytes) (offset : nat) (data : bytes) : bytes :=
  take offset old ++ replicate (offset - length old) Byte.x00 ++ data
    ++ drop (offset + length data) old.

Section interleaved.
Variable TEMP_DIR : string.

Definition step (rq : request) (p : pc) (st : fs) : pc * fs :=
  match p with
  | Persist =>
      let dir := <[chunk_index rq := content rq]> (staged st (file_id rq)) in
      (Check, Fs (<[file_id rq := dir]> (chunk_dirs st)) (temp_files st))
  | Check =>
      let uploaded_chunks := Z.of_nat (size (staged st (file_id rq))) in
      if decide (uploaded_chunks = total_chunks rq) then
        (Copy (seqZ 0 (total_chunks rq)) 0,
         Fs (chunk_dirs st) (<[filename rq := []]> (temp_files st)))
      else if decide (total_chunks rq = 0) then
        (Finished (Http500 "Chunk upload error: division by zero"), st)
      else
        (Finished (Ok (ChunkReceived (chunk_index rq) (total_chunks rq) uploaded_chunks
                         (progress_of uploaded_chunks (total_chunks rq)))), st)
  | Copy (i :: rest) offset =>
      match chunk_dirs st !! file_id rq ≫= (.!! i) with
      | Some chunk_data =>
          let old := default [] (temp_files st !! filename rq) in
          (Copy rest (offset + length chunk_data),
           Fs (chunk_dirs st)
              (<[filename rq := write_at old offset chunk_data]> (temp_files st)))
      | None => (Finished (Http500 "Chunk upload error: no such file"), st)
      end
  | Copy [] _ =>
      match chunk_dirs st !! file_id rq with
      | Some _ =>
          (Finished (Ok (Complete "All chunks uploaded and file assembled"
                           (final_file_path TEMP_DIR (filename rq)) true)),
           Fs (delete (file_id rq) (chunk_dirs st)) (temp_files st))
      | None => (Finished (Http500 "Chunk upload error: no such file"), st)
      end
  | Finished r => (Finished r, st)
  end.

(** The calls in flight, each with the block it is about to run, and the
    event loop giving the next turn to call [k]. *)
Definition sched_step (k : nat) (cfg : list (request * pc) * fs)
  : list (request * pc) * fs :=
  match cfg.1 !! k with
  | Some (rq, p) =>
      let '(p', st') := step rq p cfg.2 in (<[k := (rq, p')]> cfg.1, st')
  | None => cfg
  end.

Definition run (schedule : list nat) (cfg : list (request * pc) * fs)
  : list (request * pc) * fs :=
  foldl (λ c k, sched_step k c) cfg schedule.

End interleaved.




Definition answer (h : request * pc) : option result :=
  match h.2 with Finished r => Some r | _ => None end.

(** The request that sends the bytes [s.2] as chunk [s.1] of [N]. *)
Definition sent (N : nat) (id name : string) (s : nat * bytes) : request :=
  Request s.2 (Z.of_nat s.1) (Z.of_nat N) id name.


Definition is_complete (r : result) : bool :=
  match r with Ok (Complete _ _ _) => true | _ => false end.

(** *** One call of the interleaved model run alone *)

Section alone.
Variable TEMP_DIR : string.
Implicit Types (st : fs) (rq : request) (w : bytes).

Local Abbreviation turn rq := (uncurry (step TEMP_DIR rq)).


Lemma staged_insert_eq dirs tf id dir :
  staged (Fs (<[id := dir]> dirs) tf) id = dir.
Proof. unfold staged. simpl. by rewrite lookup_insert_eq. Qed.









End alone.

(** *** Calls run one after the other *)

(** The directory after the given chunks were written to it, each write
    replacing the file of its index. *)
Definition written (dir : gmap Z bytes) (sends : list (nat * bytes)) : gmap Z bytes :=
  foldl (λ d s, <[Z.of_nat s.1 := s.2]> d) dir sends.

(** The staged files bear indices below [N]. *)
Definition in_range (N : nat) (dir : gmap Z bytes) : Prop :=
  ∀ j, is_Some (dir !! j) → 0 ≤ j < Z.of_nat N.

(** The staged files in ascending order of index. *)
Definition contents (N : nat) (dir : gmap Z bytes) : list bytes :=
  (λ j : nat, default [] (dir !! Z.of_nat j)) <$> seq 0 N.

Definition complete_response (TEMP_DIR name : string) : result :=
  Ok (Complete "All chunks uploaded and file assembled"
        (final_file_path TEMP_DIR name) true).

Definition received_response (N : nat) (s : nat * bytes) (r : result) : Prop :=
  ∃ u, r = Ok (ChunkReceived (Z.of_nat s.1) (Z.of_nat N) u (progress_of u (Z.of_nat N))).

Section sequential.
Variable TEMP_DIR : string.
Variables (N : nat) (id name : string).
Implicit Types (st : fs) (dir : gmap Z bytes) (n i j : nat) (s : nat * bytes).

Local Abbreviation put := (sent N id name).

Lemma upload_all_app st l1 l2 :
  upload_all TEMP_DIR st (l1 ++ l2) =
    let '(st1, r1) := upload_all TEMP_DIR st l1 in
    let '(st2, r2) := upload_all TEMP_DIR st1 l2 in
    (st2, r1 ++ r2).
Proof.
  revert st. induction l1 as [|rq l1 IH]; intros st; simpl.
  - by destruct (upload_all TEMP_DIR st l2).
  - destruct (upload_file_chunk TEMP_DIR st rq) as [st1 r].
    rewrite IH. destruct (upload_all TEMP_DIR st1 l1) as [st2 rs].
    by destruct (upload_all TEMP_DIR st2 l2).
Qed.

Lemma in_range_empty : in_range N ∅.
Proof. intros j [b Hb]. by rewrite lookup_empty in Hb. Qed.

Lemma in_range_insert dir n b :
  (n < N)%nat → in_range N dir → in_range N (<[Z.of_nat n := b]> dir).
Proof.
  intros Hn Hdir j. destruct (decide (Z.of_nat n = j)) as [<-|Hne].
  - intros _. lia.
  - rewrite lookup_insert_ne by done. apply Hdir.
Qed.

Lemma in_range_dom dir :
  in_range N dir → dom dir ⊆ list_to_set (seqZ 0 (Z.of_nat N)).
Proof.
  intros Hdir j Hj%elem_of_dom. apply elem_of_list_to_set, elem_of_seqZ.
  specialize (Hdir j Hj). lia.
Qed.

Lemma size_range : size (list_to_set (C:=gset Z) (seqZ 0 (Z.of_nat N))) = N.
Proof.
  rewrite size_list_to_set by apply NoDup_seqZ. rewrite length_seqZ. lia.
Qed.

(** A staging directory that lacks an index below [N] holds fewer than [N]
    files. *)
Lemma in_range_missing dir i :
  in_range N dir → (i < N)%nat → dir !! Z.of_nat i = None → (size dir < N)%nat.
Proof.
  intros Hdir Hi Hnone. rewrite <- size_dom, <- size_range.
  apply subset_size. split; [by apply in_range_dom|].
  intros Hsub. apply (not_elem_of_dom dir (Z.of_nat i)); [done|].
  apply Hsub, elem_of_list_to_set, elem_of_seqZ. lia.
Qed.

(** One that holds every index below [N] holds exactly [N] files. *)
Lemma in_range_full dir :
  in_range N dir → (∀ n, (n < N)%nat → is_Some (dir !! Z.of_nat n)) →
  size dir = N.
Proof.
  intros Hdir Hall. rewrite <- size_dom, <- size_range. f_equal.
  apply set_eq. intros j. split; [apply in_range_dom; done|].
  intros [H0 HN]%elem_of_list_to_set%elem_of_seqZ. apply elem_of_dom.
  replace j with (Z.of_nat (Z.to_nat j)) by lia. apply Hall. lia.
Qed.

(** The copy loop over the indices [k], [k+1], ... appends the files in that
    order. *)
Lemma copy_chunks_present dir k m w :
  (∀ n, (k ≤ n < k + m)%nat → is_Some (dir !! Z.of_nat n)) →
  copy_chunks dir (seqZ (Z.of_nat k) (Z.of_nat m)) w =
    inl (w ++ concat ((λ j : nat, default [] (dir !! Z.of_nat j)) <$> seq k m)).
Proof.
  revert k w. induction m as [|m IH]; intros k w Hall.
  - rewrite seqZ_nil by done. simpl. by rewrite app_nil_r.
  - rewrite seqZ_cons by lia. cbn [copy_chunks seq fmap list_fmap concat].
    destruct (Hall k) as [b Hb]; [lia|]. rewrite Hb. cbn [default].
    replace (Z.succ (Z.of_nat k)) with (Z.of_nat (S k)) by lia.
    replace (Z.pred (Z.of_nat (S m))) with (Z.of_nat m) by lia.
    rewrite IH by (intros n Hn; apply Hall; lia). by rewrite <- app_assoc.
Qed.

Lemma copy_chunks_full dir :
  (∀ n, (n < N)%nat → is_Some (dir !! Z.of_nat n)) →
  copy_chunks dir (seqZ 0 (Z.of_nat N)) [] = inl (concat (contents N dir)).
Proof.
  intros Hall. apply (copy_chunks_present dir 0 N []).
  intros n Hn. apply Hall. lia.
Qed.

Lemma written_snoc dir sends s :
  written dir (sends ++ [s]) = <[Z.of_nat s.1 := s.2]> (written dir sends).
Proof. unfold written. by rewrite foldl_app. Qed.

Lemma written_cons dir sends s :
  written dir (s :: sends) = written (<[Z.of_nat s.1 := s.2]> dir) sends.
Proof. done. Qed.

Lemma written_is_Some dir sends j :
  is_Some (written dir sends !! Z.of_nat j) ↔
  is_Some (dir !! Z.of_nat j) ∨ j ∈ sends.*1.
Proof.
  revert dir. induction sends as [|s sends IH]; intros dir.
  - simpl. rewrite elem_of_nil. tauto.
  - rewrite written_cons, IH, fmap_cons, elem_of_cons.
    destruct (decide (s.1 = j)) as [<-|Hne].
    + rewrite lookup_insert_eq. split; [auto|]. intros _. left. eauto.
    + rewrite lookup_insert_ne by lia. split; intros [?|?]; auto.
      destruct H as [?|?]; [congruence|auto].
Qed.

(** The directory after [s] has been written to it. *)
Definition stage st s : gmap Z bytes :=
  <[Z.of_nat s.1 := s.2]> (staged st id).

(** The call that counts a number of files other than [N]. *)
Lemma upload_sent_received st s :
  N ≠ 0%nat → size (stage st s) ≠ N →
  upload_file_chunk TEMP_DIR st (put s) =
    (Fs (<[id := stage st s]> (chunk_dirs st)) (temp_files st),
     Ok (ChunkReceived (Z.of_nat s.1) (Z.of_nat N) (Z.of_nat (size (stage st s)))
           (progress_of (Z.of_nat (size (stage st s))) (Z.of_nat N)))).
Proof.
  intros HN Hsz. unfold upload_file_chunk, sent. simpl. fold (stage st s).
  rewrite decide_False by lia. by rewrite decide_False by lia.
Qed.

(** The call that finds every index below [N] staged. *)
Lemma upload_sent_complete st s :
  in_range N (staged st id) → (s.1 < N)%nat →
  (∀ j, (j < N)%nat → j ≠ s.1 → is_Some (staged st id !! Z.of_nat j)) →
  upload_file_chunk TEMP_DIR st (put s) =
    (Fs (delete id (chunk_dirs st))
        (<[name := concat (contents N (stage st s))]> (temp_files st)),
     complete_response TEMP_DIR name).
Proof.
  intros Hdir Hn Hall.
  assert (in_range N (stage st s)) as Hdir' by by apply in_range_insert.
  assert (∀ j, (j < N)%nat → is_Some (stage st s !! Z.of_nat j)) as Hall'.
  { intros j Hj. unfold stage. destruct (decide (j = s.1)) as [->|Hne].
    - rewrite lookup_insert_eq. eauto.
    - rewrite lookup_insert_ne by lia. by apply Hall. }
  unfold upload_file_chunk, sent. simpl. fold (stage st s).
  rewrite decide_True by (f_equal; by apply in_range_full).
  rewrite copy_chunks_full by done. by rewrite delete_insert_eq.
Qed.

(** A run of calls none of which sends index [i]: none completes the file. *)
Lemma upload_all_prefix st pre i :
  in_range N (staged st id) → Forall (λ s, (s.1 < N)%nat) pre →
  (i < N)%nat → staged st id !! Z.of_nat i = None → i ∉ pre.*1 →
  ∃ st' rs,
    upload_all TEMP_DIR st (put <$> pre) = (st', rs) ∧
    staged st' id = written (staged st id) pre ∧
    in_range N (staged st' id) ∧
    staged st' id !! Z.of_nat i = None ∧
    temp_files st' = temp_files st ∧
    delete id (chunk_dirs st') = delete id (chunk_dirs st) ∧
    Forall2 (received_response N) pre rs.
Proof.
  revert st. induction pre as [|s pre IH]; intros st Hdir Hpre Hi Hnone Hnin.
  - exists st, []. simpl. by split_and!.
  - apply Forall_cons in Hpre as [Hs Hpre]. rewrite fmap_cons in Hnin.
    apply not_elem_of_cons in Hnin as [His Hnin].
    assert (stage st s !! Z.of_nat i = None) as Hnone'
      by (unfold stage; rewrite lookup_insert_ne by lia; done).
    assert (in_range N (stage st s)) as Hdir' by by apply in_range_insert.
    pose proof (in_range_missing _ _ Hdir' Hi Hnone') as Hlt.
    set (st1 := Fs (<[id := stage st s]> (chunk_dirs st)) (temp_files st)).
    assert (staged st1 id = stage st s) as Hst1 by apply staged_insert_eq.
    destruct (IH st1) as (st' & rs & Hrun & Hwr & Hdir'' & Hnone'' & Htf & Hdel & Hrs);
      try (rewrite Hst1); try done.
    eexists st', _. rewrite fmap_cons. cbn [upload_all].
    rewrite upload_sent_received by lia.
    fold st1. rewrite Hrun. split_and!; try done.
    + by rewrite Hwr, Hst1.
    + rewrite Hdel. simpl. by rewrite delete_insert_eq.
    + constructor; [|done]. by eexists.
Qed.

(** The run of C1 in full: the files it leaves and the answers it gets. *)
Lemma upload_all_last st pre s :
  chunk_dirs st !! id = None →
  Forall (λ s', (s'.1 < N)%nat) pre → (s.1 < N)%nat → s.1 ∉ pre.*1 →
  (∀ j, (j < N)%nat → j ≠ s.1 → j ∈ pre.*1) →
  ∃ rs,
    upload_all TEMP_DIR st (put <$> pre ++ [s]) =
      (Fs (chunk_dirs st)
          (<[name := concat (contents N (written ∅ (pre ++ [s])))]> (temp_files st)),
       rs ++ [complete_response TEMP_DIR name]) ∧
    Forall2 (received_response N) pre rs.
Proof.
  intros Hfresh Hpre Hs Hnin Hall.
  assert (staged st id = ∅) as Hempty by (unfold staged; by rewrite Hfresh).
  destruct (upload_all_prefix st pre s.1)
    as (st1 & rs & Hrun & Hwr & Hdir & Hnone & Htf & Hdel & Hrs);
    try done; try (rewrite Hempty; [apply in_range_empty || done]).
  exists rs. split; [|done].
  rewrite fmap_app, upload_all_app, Hrun. cbn [fmap list_fmap upload_all].
  rewrite upload_sent_complete; [|done|done|].
  - unfold stage. rewrite Hwr, Hempty, <- written_snoc.
    by rewrite Hdel, Htf, delete_id.
  - intros j Hj Hne. rewrite Hwr. apply written_is_Some. right. by apply Hall.
Qed.




Lemma received_not_complete pre rs :
  Forall2 (received_response N) pre rs → Forall (λ r, is_complete r = false) rs.
Proof. induction 1 as [|s r pre rs [u ->] _ IH]; by constructor. Qed.

End sequential.

Lemma contents_chunks (chunks : list bytes) (dir : gmap Z bytes) :
  (∀ j, (j < length chunks)%nat → dir !! Z.of_nat j = chunks !! j) →
  contents (length chunks) dir = chunks.
Proof.
  intros Hdir. apply list_eq. intros j. unfold contents.
  rewrite list_lookup_fmap. destruct (decide (j < length chunks)%nat) as [Hj|Hj].
  - rewrite lookup_seq_lt by done. simpl. rewrite Hdir by done.
    destruct (lookup_lt_is_Some_2 chunks j Hj) as [b ->]. done.
  - rewrite lookup_seq_ge by lia. simpl. symmetry. apply lookup_ge_None. lia.
Qed.

(** C1.  A file is cut into [N] chunks and uploaded to a file id that has
    no staging directory yet, by calls that run one after the other.  The
    calls [pre] send indices other than that of [s], each of them at least
    once, in any order; an index sent again replaces the bytes sent for it
    before.  The next call sends [s].  When the bytes last sent for each
    index are that chunk of the file, then none of the calls of [pre]
    completes the file, the call sending [s] does, and after it the final
    file holds the chunks in ascending order of index, which is the original
    file, and the staging directory is gone. *)
Theorem reassembly_byte_identical (TEMP_DIR : string) (chunks : list bytes)
    (id name : string) (st : fs) (pre : list (nat * bytes)) (s : nat * bytes) :
  chunk_dirs st !! id = None →
  Forall (λ s', (s'.1 < length chunks)%nat) pre → (s.1 < length chunks)%nat →
  s.1 ∉ pre.*1 →
  (∀ j, (j < length chunks)%nat → j ≠ s.1 → j ∈ pre.*1) →
  (∀ j, (j < length chunks)%nat →
        written ∅ (pre ++ [s]) !! Z.of_nat j = chunks !! j) →
  ∃ st' rs,
    upload_all TEMP_DIR st (sent (length chunks) id name <$> pre ++ [s]) =
      (st', rs ++ [complete_response TEMP_DIR name]) ∧
    Forall (λ r, is_complete r = false) rs ∧
    temp_files st' !! name = Some (concat chunks) ∧
    chunk_dirs st' !! id = None.
Proof.
  intros Hfresh Hpre Hs Hnin Hall Hbytes.
  destruct (upload_all_last TEMP_DIR (length chunks) id name st pre s)
    as (rs & Hrun & Hrs); try done.
  eexists _, rs. split_and!; [exact Hrun| | |done].
  - by eapply received_not_complete.
  - simpl. rewrite lookup_insert_eq. by rewrite contents_chunks.
Qed.


(** A file of three one-byte parts. *)
Definition three_parts : list bytes := [[Byte.x61]; [Byte.x62]; [Byte.x63]].

(** Chunk 2 is first sent with wrong bytes and then sent again. *)
Lemma reassembly_byte_identical_witness :
  let pre := [(2%nat, [Byte.x7a]); (0%nat, [Byte.x61]); (2%nat, [Byte.x63])] in
  chunk_dirs empty_fs !! "f1" = None ∧
  ∃ st' rs,
    upload_all "/tmp" empty_fs
      (sent (length three_parts) "f1" "data.csv" <$> pre ++ [(1%nat, [Byte.x62])]) =
      (st', rs ++ [complete_response "/tmp" "data.csv"]) ∧
    Forall (λ r, is_complete r = false) rs ∧
    temp_files st' !! "data.csv" = Some (concat three_parts) ∧
    chunk_dirs st' !! "f1" = None.
Proof.
  intros pre. split; [done|].
  apply (reassembly_byte_identical "/tmp" three_parts "f1" "data.csv"
           empty_fs pre (1%nat, [Byte.x62])).
  - done.
  - repeat constructor.
  - simpl. lia.
  - simpl. rewrite !not_elem_of_cons. split_and!; try lia. apply not_elem_of_nil.
  - intros j Hj Hne. simpl in *. rewrite !elem_of_cons.
    destruct j as [|[|[|j]]]; [auto|done|auto|lia].
  - intros j Hj. simpl in Hj. destruct j as [|[|[|j]]]; [done|done|done|lia].
Defined.



(** *** Two calls racing on the completeness test *)




End ChunkStore.

(** ** Processing records (server.py, [LargeFileProcessor.processing_status]) *)

Module Status.

Inductive status : Type := uploading | processing | complete | error | cancelled.

Global Instance status_eq_dec : EqDecision status.
Proof. solve_decision. Defined.

(** The dict stored under a processing id: its ["status"] and ["progress"],
    and its ["start_time"] when it has one (the dicts written on failure and
    by [cancel_processing] have none).  The ["message"] text is left out: no
    branch of the code reads it.  Progress values and clock readings (in
    seconds) are floats in the source and rationals here. *)
Record record : Type := Rec {
  status_of : status;
  progress : Q;
  start_time : option Q
}.

Definition is_terminal (s : status) : bool :=
  match s with
  | complete | error | cancelled => true
  | uploading | processing => false
  end.

(** The three ways the code writes to the dict of one id:
    [processing_status[id] = {...}], [processing_status[id]["progress"] = p]
    and [processing_status[id].update({...})], whose patch always carries a
    progress and sometimes a status. *)
Inductive write : Type :=
| Assign (r : record)
| SetProgress (p : Q)
| Update (s : option status) (p : Q).

Definition apply_write (w : write) (r : record) : record :=
  match w with
  | Assign r' => r'
  | SetProgress p => Rec (status_of r) p (start_time r)
  | Update s p => Rec (default (status_of r) s) p (start_time r)
  end.

(** The successive values of a record under a sequence of writes. *)
Fixpoint trace (r : record) (ws : list write) : list record :=
  match ws with
  | [] => []
  | w :: ws => apply_write w r :: trace (apply_write w r) ws
  end.

(** [min(a, b)] of Python: [b] when [b < a], else [a]. *)
Definition py_min (a b : Q) : Q := if Qlt_le_dec b a then b else a.

End Status.

(** ** The JSON-Lines reader (server.py, [_stream_large_json]) *)

Module JsonLines.
Import Status.

(** The dicts the generator yields. *)
Inductive event : Type :=
| ProgressEvent (lines_processed objects_parsed : Z) (progress : Q)
| CompleteEvent (total_lines parsed_objects : Z) (processing_time : Q)
| ErrorEvent (message : string).

(** What the generator does, in order: a write to the status record or a
    [yield]. *)
Inductive action : Type :=
| Store (w : write)
| Emit (e : event).

Section reader.
(** [json.loads]: [None] stands for [json.JSONDecodeError]; [str.strip]. *)
Context {J : Type}.
Variable json_loads : string → option J.
Variable strip : string → string.

(** [min(90, (line_num / 100000) * 90)] *)
Definition line_progress (line_num : Z) : Q :=
  py_min 90 (inject_Z line_num / 100000 * 90)%Q.

(** The body of [for line_num, line in enumerate(f, 1)], from line number
    [line_num] on, with the current values of [line_count] and
    [parsed_objects]; returns the actions and the final values of the two
    counters.  The [continue] of the [except] clause skips the assignment
    [line_count = line_num]. *)
Fixpoint read_lines (lines : list string) (line_num line_count parsed_objects : Z)
  : list action * (Z * Z) :=
  match lines with
  | [] => ([], (line_count, parsed_objects))
  | line :: rest =>
      let line := strip line in
      if decide (line = "") then
        read_lines rest (line_num + 1) line_num parsed_objects
      else
        match json_loads line with
        | Some obj =>
            let parsed_objects := parsed_objects + 1 in
            let acts :=
              if decide (line_num `mod` 10000 = 0) then
                [Store (Update None (line_progress line_num));
                 Emit (ProgressEvent line_num parsed_objects (line_progress line_num))]
              else [] in
            let '(more, counts) :=
              read_lines rest (line_num + 1) line_num parsed_objects in
            (acts ++ more, counts)
        | None => read_lines rest (line_num + 1) line_count parsed_objects
        end
  end.

(** [async def _stream_large_json(self, file_path, encoding, processing_id)]
    on a file of the given lines.  [started] is the ["start_time"] of the
    status record when the final event is built, [now] the clock then; a
    record without ["start_time"] raises [KeyError], which the [except]
    clause turns into an error event. *)
Definition _stream_large_json (lines : list string) (started : option Q) (now : Q)
  : list action :=
  let '(acts, (line_count, parsed_objects)) := read_lines lines 1 0 0 in
  acts ++
  match started with
  | Some t0 => [Emit (CompleteEvent line_count parsed_objects (now - t0)%Q)]
  | None => [Emit (ErrorEvent "JSON streaming error: 'start_time'")]
  end.

(** What the reader sees in a line. *)
Definition is_malformed (line : string) : Prop :=
  strip line ≠ "" ∧ json_loads (strip line) = None.
Definition parses (line : string) : bool :=
  bool_decide (strip line ≠ "") && bool_decide (is_Some (json_loads (strip line))).

End reader.

(** The final event of a run. *)
Definition final_event (acts : list action) : option event :=
  match last acts with
  | Some (Emit e) => Some e
  | _ => None
  end.

Definition is_complete_event (a : action) : bool :=
  match a with Emit (CompleteEvent _ _ _) => true | _ => false end.

Section facts.
Context {J : Type}.
Variable json_loads : string → option J.
Variable strip : string → string.
Implicit Types (lines : list string) (line : string).

Local Abbreviation read := (read_lines json_loads strip).
Local Abbreviation stream := (_stream_large_json json_loads strip).

Lemma read_lines_app lines1 lines2 line_num line_count parsed_objects :
  read (lines1 ++ lines2) line_num line_count parsed_objects =
    let '(acts1, (count1, parsed1)) := read lines1 line_num line_count parsed_objects in
    let '(acts2, counts) :=
      read lines2 (line_num + Z.of_nat (length lines1)) count1 parsed1 in
    (acts1 ++ acts2, counts).
Proof.
  revert line_num line_count parsed_objects.
  induction lines1 as [|line lines1 IH]; intros line_num line_count parsed_objects.
  - simpl. rewrite Z.add_0_r.
    by destruct (read lines2 line_num line_count parsed_objects) as [? [? ?]].
  - cbn [app read_lines length].
    replace (line_num + Z.of_nat (S (length lines1)))
      with (line_num + 1 + Z.of_nat (length lines1)) by lia.
    case_decide; [apply IH|].
    destruct (json_loads (strip line)); [|apply IH].
    rewrite IH.
    destruct (read lines1 (line_num + 1) line_num (parsed_objects + 1))
      as [acts1 [count1 parsed1]].
    destruct (read lines2 _ count1 parsed1) as [acts2 counts].
    by rewrite app_assoc.
Qed.

(** The reader never yields a [complete] event while it reads. *)
Lemma read_lines_no_complete lines line_num line_count parsed_objects :
  Forall (λ a, is_complete_event a = false)
    (read lines line_num line_count parsed_objects).1.
Proof.
  revert line_num line_count parsed_objects.
  induction lines as [|line lines IH]; intros line_num line_count parsed_objects;
    [by constructor|].
  cbn [read_lines]. case_decide; [apply IH|].
  destruct (json_loads (strip line)); [|apply IH].
  specialize (IH (line_num + 1) line_num (parsed_objects + 1)).
  destruct (read lines _ _ _) as [more counts]. cbn [fst] in *.
  case_decide; [by repeat constructor|done].
Qed.

Lemma parses_true line :
  parses json_loads strip line = true ↔
  strip line ≠ "" ∧ is_Some (json_loads (strip line)).
Proof. unfold parses. by rewrite andb_true_iff, !bool_decide_eq_true. Qed.

(** [parsed_objects] counts the lines that parse. *)
Lemma read_lines_parsed lines line_num line_count parsed_objects :
  (read lines line_num line_count parsed_objects).2.2 =
    parsed_objects + Z.of_nat (length (filter (λ l, parses json_loads strip l = true) lines)).
Proof.
  revert line_num line_count parsed_objects.
  induction lines as [|line lines IH]; intros line_num line_count parsed_objects;
    [simpl; lia|].
  cbn [read_lines].
  destruct (decide (strip line = "")) as [Hblank|Hblank].
  - rewrite filter_cons_False by (by intros [? _]%parses_true). apply IH.
  - destruct (json_loads (strip line)) as [obj|] eqn:Hobj.
    + rewrite filter_cons_True by (apply parses_true; rewrite Hobj; eauto).
      specialize (IH (line_num + 1) line_num (parsed_objects + 1)).
      destruct (read lines _ _ _) as [more [c k]]. cbn [fst snd length] in *. lia.
    + rewrite filter_cons_False
        by (intros [_ [? ?]]%parses_true; congruence).
      apply IH.
Qed.

(** [line_count] ends as the number of the last line that is blank or
    parses, and keeps its value when there is no such line. *)
Lemma read_lines_count_bounds lines line_num line_count parsed_objects :
  let count := (read lines line_num line_count parsed_objects).2.1 in
  count = line_count ∨ line_num ≤ count < line_num + Z.of_nat (length lines).
Proof.
  revert line_num line_count parsed_objects.
  induction lines as [|line lines IH]; intros line_num line_count parsed_objects;
    [by left|].
  cbn [read_lines length]. case_decide.
  - destruct (IH (line_num + 1) line_num parsed_objects) as [->|?]; right; lia.
  - destruct (json_loads (strip line)).
    + specialize (IH (line_num + 1) line_num (parsed_objects + 1)).
      destruct (read lines _ _ _) as [more [c k]]. cbn [fst snd] in *.
      destruct IH as [->|?]; right; lia.
    + destruct (IH (line_num + 1) line_count parsed_objects) as [->|?]; [by left|].
      right. lia.
Qed.

(** A last line that is blank or parses makes [line_count] the number of
    lines. *)
Lemma read_lines_count_last lines line :
  ¬ is_malformed json_loads strip line →
  (read (lines ++ [line]) 1 0 0).2.1 = Z.of_nat (length (lines ++ [line])).
Proof.
  intros Hok. rewrite read_lines_app.
  destruct (read lines 1 0 0) as [acts1 [count1 parsed1]].
  cbn [read_lines]. rewrite length_app. cbn [length].
  case_decide as Hblank; [simpl; lia|].
  destruct (json_loads (strip line)) eqn:Hobj.
  - case_decide; simpl; lia.
  - exfalso. by apply Hok.
Qed.

(** A malformed last line leaves no trace: the run is the run on the file
    without it. *)
Lemma read_lines_malformed_last lines line line_num line_count parsed_objects :
  is_malformed json_loads strip line →
  read (lines ++ [line]) line_num line_count parsed_objects =
    read lines line_num line_count parsed_objects.
Proof.
  intros [Hblank Hbad]. rewrite read_lines_app.
  destruct (read lines line_num line_count parsed_objects) as [acts [c k]].
  cbn [read_lines]. rewrite decide_False by done. rewrite Hbad.
  by rewrite app_nil_r.
Qed.

(** With a record that has its start time the run ends with one [complete]
    event, the only one, which carries the two counters. *)
Lemma stream_ends_complete lines started now :
  ∃ acts,
    stream lines (Some started) now =
      acts ++ [Emit (CompleteEvent (read lines 1 0 0).2.1 (read lines 1 0 0).2.2
                       (now - started)%Q)] ∧
    Forall (λ a, is_complete_event a = false) acts.
Proof.
  unfold _stream_large_json.
  pose proof (read_lines_no_complete lines 1 0 0) as Hno.
  destruct (read lines 1 0 0) as [acts [c k]]. by exists acts.
Qed.

(** C7 (the defect).  When the last line of the file is malformed, the run
    is the run on the file without that line: the final [complete] event
    reports [total_lines] below the number of lines of the file. *)
Theorem malformed_last_line_not_counted lines line started now :
  is_malformed json_loads strip line →
  ∃ total_lines parsed_objects,
    final_event (stream (lines ++ [line]) (Some started) now) =
      Some (CompleteEvent total_lines parsed_objects (now - started)%Q) ∧
    total_lines < Z.of_nat (length (lines ++ [line])) ∧
    parsed_objects =
      Z.of_nat (length (filter (λ l, parses json_loads strip l = true) (lines ++ [line]))).
Proof.
  intros Hbad. unfold _stream_large_json.
  rewrite read_lines_malformed_last by done.
  pose proof (read_lines_count_bounds lines 1 0 0) as Hcount.
  pose proof (read_lines_parsed lines 1 0 0) as Hparsed.
  destruct (read lines 1 0 0) as [acts [c k]]. cbn [fst snd] in *.
  exists c, k. split_and!.
  - unfold final_event. by rewrite last_snoc.
  - rewrite length_app. simpl. lia.
  - rewrite filter_app, length_app, Hparsed.
    destruct Hbad as [Hblank Hnone].
    rewrite filter_cons_False by (intros [_ [? ?]]%parses_true; congruence).
    simpl. lia.
Qed.

End facts.

(** *** Concrete runs *)

(** A reader for which the only object is [{}] and no character is blank. *)
Definition only_braces (line : string) : option unit :=
  if decide (line = "{}") then Some () else None.

Lemma malformed_last_line_not_counted_witness :
  is_malformed only_braces id "oops" ∧
  final_event (_stream_large_json only_braces id (["{}"] ++ ["oops"]) (Some 0%Q) 5%Q) =
    Some (CompleteEvent 1 1 (5 - 0)%Q).
Proof.
  assert (is_malformed only_braces id "oops") as Hbad by (split; done).
  split; [done|].
  destruct (malformed_last_line_not_counted only_braces id ["{}"] "oops" 0%Q 5%Q Hbad)
    as (n & k & Hfinal & _ & _).
  rewrite Hfinal. vm_compute in Hfinal. by injection Hfinal as <- <-.
Defined.

(** The file of the specification's example: 15,000 lines, two of them
    malformed, neither the last. *)
Definition fifteen_thousand : list string :=
  replicate (Z.to_nat 7000) "{}" ++ ["{"] ++ replicate (Z.to_nat 7000) "{}" ++ ["}"]
    ++ replicate (Z.to_nat 998) "{}".

Lemma fifteen_thousand_lines :
  final_event (_stream_large_json only_braces id fifteen_thousand (Some 0%Q) 5%Q) =
    Some (CompleteEvent 15000 14998 (5 - 0)%Q).
Proof. vm_compute. reflexivity. Qed.

(** The same lines with the second malformed line moved to the end. *)
Lemma fifteen_thousand_lines_bad_end :
  final_event (_stream_large_json only_braces id
                 (replicate (Z.to_nat 7000) "{}" ++ ["{"]
                    ++ replicate (Z.to_nat 7998) "{}" ++ ["}"])
                 (Some 0%Q) 5%Q) =
    Some (CompleteEvent 14999 14998 (5 - 0)%Q).
Proof. vm_compute. reflexivity. Qed.

End JsonLines.

(** ** The pipeline run and cancellation (server.py, [process_large_file],
       the parsers it drives, [_process_file_background], [cancel_processing]) *)

Module Pipeline.
Import Status.

Abbreviation bytes := (list Byte.byte).

(** [min(50, (total_size / file.size) * 50) if file.size > 0 else 50] *)
Definition upload_progress (total_size file_size : Z) : Q :=
  if decide (0 < file_size)
  then py_min 50 (inject_Z total_size / inject_Z file_size * 50)%Q
  else 50%Q.

(** The loop [while chunk := await file.read(CHUNK_SIZE)], over the chunks it
    reads, with the running [total_size]. *)
Fixpoint save_chunks (file_size total_size : Z) (chunks : list bytes) : list write :=
  match chunks with
  | [] => []
  | chunk :: rest =>
      let total_size := total_size + Z.of_nat (length chunk) in
      SetProgress (upload_progress total_size file_size)
        :: save_chunks file_size total_size rest
  end.

(** The parsers run code of pandas, dask and openpyxl, any call of which may
    raise; each parser catches what is raised and ends.  A run of a parser is
    described by how far it got: [reached] counts the writes to the status
    record it performed. *)

(** [_process_dataframe]: progress 70, progress 90, then status [complete]. *)
Definition _process_dataframe (reached : nat) : list write :=
  take reached [Update None 70; Update None 90; Update (Some complete) 100].

(** [_process_dask_dataframe]: progress 70. *)
Definition _process_dask_dataframe (reached : nat) : list write :=
  take reached [Update None 70].

(** [_process_csv_chunks]: [min(90, chunks_processed * 10)] per chunk read. *)
Definition _process_csv_chunks (chunks_read : nat) : list write :=
  (λ chunks_processed : nat,
     Update None (py_min 90 (inject_Z (Z.of_nat chunks_processed) * 10)%Q))
    <$> seq 1 chunks_read.

(** [_process_excel_file]: [50 + (i / len(sheet_names)) * 40] for each sheet
    [i] it starts on. *)
Definition _process_excel_file (sheets started : nat) : list write :=
  (λ i : nat,
     Update None (50 + inject_Z (Z.of_nat i) / inject_Z (Z.of_nat sheets) * 40)%Q)
    <$> take started (seq 0 sheets).

(** What [json.load] gave for a file below 50MB. *)
Inductive json_document : Type :=
| JsonUnreadable
| JsonList (reached : nat)
| JsonObject.

(** The run of the parser the file extension selects. *)
Inductive parser_run : Type :=
| CsvPandas (reached : nat)
| CsvDask (reached : nat)
| CsvChunks (chunks_read : nat)
| Excel (sheets started : nat)
| Json (file_size : Z) (document : json_document) (lines : list string)
| NoParser.

Definition stored (acts : list JsonLines.action) : list write :=
  omap (λ a, match a with JsonLines.Store w => Some w | JsonLines.Emit _ => None end) acts.

Section run.
Context {J : Type}.
Variable json_loads : string → option J.
Variable strip : string → string.

(** [_process_json_file]: below 50MB the document is loaded whole, from 50MB
    on the file is read as JSON-Lines. *)
Definition _process_json_file (file_size : Z) (document : json_document)
    (lines : list string) : list write :=
  if decide (file_size < 50 * 1024 * 1024) then
    match document with
    | JsonList reached => _process_dataframe reached
    | JsonUnreadable | JsonObject => []
    end
  else stored (JsonLines.read_lines json_loads strip lines 1 0 0).1.

Definition parser_writes (p : parser_run) : list write :=
  match p with
  | CsvPandas reached => _process_dataframe reached
  | CsvDask reached => _process_dask_dataframe reached
  | CsvChunks chunks_read => _process_csv_chunks chunks_read
  | Excel sheets started => _process_excel_file sheets started
  | Json file_size document lines => _process_json_file file_size document lines
  | NoParser => []
  end.

(** The record a failure leaves: [{"status": "error", "progress": 0, ...}]. *)
Definition failed : record := Rec error 0 None.

(** [async def process_large_file(self, file, processing_id)]: the record it
    creates at [now], and its later writes to it.  [saved] tells whether the
    upload loop ended normally; when it raised, the [except] clause stores
    the error record. *)
Definition process_large_file (now : Q) (file_size : Z) (chunks : list bytes)
    (saved : bool) (p : parser_run) : record * list write :=
  (Rec uploading 0 (Some now),
   save_chunks file_size 0 chunks ++
   if saved then Update (Some processing) 50 :: parser_writes p
   else [Assign failed]).

(** [_process_file_background]: an exception that leaves
    [process_large_file] (its [finally] clause can raise) stores the error
    record as well. *)
Definition _process_file_background (now : Q) (file_size : Z) (chunks : list bytes)
    (saved : bool) (p : parser_run) (cleanup_raises : bool) : record * list write :=
  let '(r, ws) := process_large_file now file_size chunks saved p in
  (r, ws ++ if cleanup_raises then [Assign failed] else []).

End run.


(** [async def cancel_processing(processing_id)] on the status store. *)
Inductive cancel_result : Type :=
| Cancelled (processing_id : string)
| Http404 (detail : string).

Definition was_cancelled : record := Rec cancelled 0 None.

Definition cancel_processing (processing_status : gmap string record)
    (processing_id : string) : gmap string record * cancel_result :=
  match processing_status !! processing_id with
  | Some _ => (<[processing_id := was_cancelled]> processing_status,
               Cancelled processing_id)
  | None => (processing_status, Http404 "Processing ID not found")
  end.

(** A write of the pipeline on the store: it addresses the dict stored under
    the id at the time of the write. *)
Definition write_to (processing_id : string) (w : write)
    (processing_status : gmap string record) : gmap string record :=
  match w with
  | Assign r => <[processing_id := r]> processing_status
  | _ => alter (apply_write w) processing_id processing_status
  end.





(** The record after all the writes. *)
Definition after (r : record) (ws : list write) : record :=
  foldl (λ r w, apply_write w r) r ws.

(** *** Arithmetic of the progress values *)

Lemma py_min_le_l a x : (py_min a x <= a)%Q.
Proof. unfold py_min. destruct (Qlt_le_dec x a); lra. Qed.




Lemma upload_progress_le_50 total file_size :
  (upload_progress total file_size <= 50)%Q.
Proof. unfold upload_progress. case_decide; [apply py_min_le_l|lra]. Qed.


(** *** Chains of writes *)











Section run_facts.
Context {J : Type}.
Variable json_loads : string → option J.
Variable strip : string → string.



End run_facts.


(** *** Concrete runs *)



(** The chunked CSV reader starts its progress again at 10 under a record
    that stands at 50. *)
Lemma csv_chunks_progress_drops :
  progress <$> trace (Rec uploading 0 (Some 0%Q))
    (process_large_file JsonLines.only_braces id 0%Q 3 [[Byte.x61; Byte.x62; Byte.x63]]
       true (CsvChunks 2)).2 =
    [50; 50; 10; 20]%Q.
Proof. vm_compute. reflexivity. Qed.

End Pipeline.

(** ** The progress stream (server.py, [stream_processing_progress]) *)

Module ProgressStream.
Import Status.

(** What the generator yields: [data: <json of the status dict>], or the
    timeout notice. *)
Inductive sse : Type :=
| Data (r : record)
| TimeoutEvent.

(** Why the loop was left. *)
Inductive stop : Type :=
| RecordGone      (* [if not status: break] *)
| Finished        (* [if status["status"] in ["complete", "error"]: break] *)
| TimedOut.       (* [if time.time() - start_time > 600: ...; break] *)

(** One turn of the [while True] loop, as the generator sees the world:
    - [at_poll]   : [processing_status.get(processing_id)] at the top of the
                    loop (the dict, as it then reads);
    - [at_resume] : the same dict as it reads when the generator is resumed
                    after its [yield]; the dict is shared with the pipeline,
                    which may have written to it meanwhile.  It is read only
                    in a turn that yields;
    - [clock]     : [time.time()] at the timeout test. *)
Record poll : Type := Poll {
  at_poll : option record;
  at_resume : record;
  clock : Q
}.

(** A turn during which nobody writes to the dict. *)
Definition calm (p : poll) : Prop :=
  ∀ r, at_poll p = Some r → at_resume p = r.

(** [status["progress"] != last_progress] *)
Definition changed (r : record) (last_progress : Q) : bool :=
  negb (Qeq_bool (progress r) last_progress).

(** [status["status"] in ["complete", "error"]] *)
Definition ends_stream (s : status) : bool :=
  match s with complete | error => true | _ => false end.

(** The dict as the turn's last two tests read it, and the new
    [last_progress]. *)
Definition seen (p : poll) (r : record) (last_progress : Q) : record :=
  if changed r last_progress then at_resume p else r.

Definition next_last (p : poll) (r : record) (last_progress : Q) : Q :=
  if changed r last_progress then progress (at_resume p) else last_progress.

(** [async def generate_updates()], run against the given turns; [None]
    when the turns run out with the loop still going ([asyncio.sleep(1)]
    ends each such turn). *)
Fixpoint generate_updates (last_progress start_time : Q) (polls : list poll)
  : list sse * option stop :=
  match polls with
  | [] => ([], None)
  | p :: rest =>
      match at_poll p with
      | None => ([], Some RecordGone)
      | Some r =>
          let events := if changed r last_progress then [Data r] else [] in
          if ends_stream (status_of (seen p r last_progress)) then
            (events, Some Finished)
          else if Qlt_le_dec 600 (clock p - start_time) then
            (events ++ [TimeoutEvent], Some TimedOut)
          else
            let '(more, why) :=
              generate_updates (next_last p r last_progress) start_time rest in
            (events ++ more, why)
      end
  end.

(** The endpoint: the 404, or the stream with [last_progress = -1]. *)
Inductive response : Type :=
| Http404 (detail : string)
| Streaming (events : list sse) (why : option stop).

Definition stream_processing_progress (processing_status : gmap string record)
    (processing_id : string) (start_time : Q) (polls : list poll) : response :=
  match processing_status !! processing_id with
  | None => Http404 "Processing ID not found"
  | Some _ =>
      let '(events, why) := generate_updates (-1) start_time polls in
      Streaming events why
  end.

(** A turn that leaves the loop. *)
Definition stops (last_progress start_time : Q) (p : poll) : Prop :=
  match at_poll p with
  | None => True
  | Some r =>
      ends_stream (status_of (seen p r last_progress)) = true ∨
      (600 < clock p - start_time)%Q
  end.

(** The progress values of the status events of a stream. *)
Definition progress_sent (events : list sse) : list Q :=
  omap (λ e, match e with Data r => Some (progress r) | TimeoutEvent => None end) events.

(** No two neighbours of the list are equal. *)
Fixpoint no_repeat (x : Q) (xs : list Q) : Prop :=
  match xs with
  | [] => True
  | y :: rest => ¬ (y == x)%Q ∧ no_repeat y rest
  end.

(** The clock is read at least one second later in each turn, starting at
    or after [t]. *)
Fixpoint paced (t : Q) (polls : list poll) : Prop :=
  match polls with
  | [] => True
  | p :: rest => (t <= clock p)%Q ∧ paced (clock p + 1) rest
  end.

Lemma changed_true r last_progress :
  changed r last_progress = true ↔ ¬ (progress r == last_progress)%Q.
Proof.
  unfold changed. rewrite negb_true_iff. split.
  - intros Hne Heq. apply Qeq_bool_iff in Heq. congruence.
  - intros Hne. destruct (Qeq_bool _ _) eqn:Heq; [|done].
    by apply Qeq_bool_iff in Heq.
Qed.

(** A turn that stops ends the stream, whatever turns would follow. *)
Lemma generate_updates_stops last_progress start_time p rest :
  stops last_progress start_time p →
  generate_updates last_progress start_time (p :: rest) =
    generate_updates last_progress start_time [p] ∧
  ∃ why, (generate_updates last_progress start_time (p :: rest)).2 = Some why.
Proof.
  unfold stops. cbn [generate_updates]. destruct (at_poll p) as [r|]; [|eauto].
  destruct (ends_stream _) eqn:Hend; [eauto|].
  destruct (Qlt_le_dec 600 (clock p - start_time)) as [Hlate|Hearly]; [eauto|].
  intros [?|Hlate]; [done|lra].
Qed.

(** A turn that does not stop hands over to the next one. *)
Lemma generate_updates_goes_on last_progress start_time p rest r :
  at_poll p = Some r → ¬ stops last_progress start_time p →
  generate_updates last_progress start_time (p :: rest) =
    ((if changed r last_progress then [Data r] else []) ++
       (generate_updates (next_last p r last_progress) start_time rest).1,
     (generate_updates (next_last p r last_progress) start_time rest).2).
Proof.
  intros Hr Hgo. unfold stops in Hgo. rewrite Hr in Hgo.
  cbn [generate_updates]. rewrite Hr.
  destruct (ends_stream _) eqn:Hend; [exfalso; auto|].
  destruct (Qlt_le_dec 600 (clock p - start_time)) as [Hlate|Hearly];
    [exfalso; auto|].
  by destruct (generate_updates _ _ rest).
Qed.

Lemma generate_updates_app_stops last_progress start_time pre p post :
  (∀ last_progress, stops last_progress start_time p) →
  generate_updates last_progress start_time (pre ++ p :: post) =
    generate_updates last_progress start_time (pre ++ [p]) ∧
  ∃ why, (generate_updates last_progress start_time (pre ++ p :: post)).2 = Some why.
Proof.
  intros Hstop. revert last_progress.
  induction pre as [|q pre IH]; intros last_progress.
  - apply generate_updates_stops, Hstop.
  - cbn [app generate_updates]. destruct (at_poll q) as [r|]; [|eauto].
    destruct (ends_stream _); [eauto|].
    destruct (Qlt_le_dec 600 (clock q - start_time)); [eauto|].
    destruct (IH (next_last q r last_progress)) as (-> & why & Hwhy).
    destruct (generate_updates _ _ (pre ++ [p])) as [more why'] eqn:Hrun.
    simpl in *. eauto.
Qed.

(** While nobody writes during a [yield], no status event repeats the
    progress of the one before it, and the first differs from the initial
    [last_progress]. *)
Lemma calm_no_repeat last_progress start_time polls :
  Forall calm polls →
  no_repeat last_progress
    (progress_sent (generate_updates last_progress start_time polls).1).
Proof.
  intros Hcalm. revert last_progress.
  induction Hcalm as [|p polls Hp _ IH]; intros last_progress; [done|].
  cbn [generate_updates]. destruct (at_poll p) as [r|] eqn:Hr; [|done].
  specialize (Hp r Hr). unfold seen, next_last. rewrite Hp.
  destruct (changed r last_progress) eqn:Hch.
  - apply changed_true in Hch.
    destruct (ends_stream _); [done|].
    destruct (Qlt_le_dec _ _); [done|].
    specialize (IH (progress r)).
    destruct (generate_updates _ _ polls) as [more why]. by split.
  - destruct (ends_stream _); [done|].
    destruct (Qlt_le_dec _ _); [done|].
    specialize (IH last_progress).
    by destruct (generate_updates _ _ polls) as [more why].
Qed.

(** With a clock that advances, the stream ends once the turns reach past
    the 600 seconds. *)
Lemma paced_stops last_progress start_time t polls :
  paced t polls → polls ≠ [] →
  (600 < t + inject_Z (Z.of_nat (length polls)) - 1 - start_time)%Q →
  ∃ why, (generate_updates last_progress start_time polls).2 = Some why.
Proof.
  revert last_progress t. induction polls as [|p rest IH];
    intros last_progress t Hpaced Hne Hlen; [done|].
  destruct Hpaced as [Ht Hpaced]. cbn [generate_updates].
  destruct (at_poll p) as [r|]; [|eauto].
  destruct (ends_stream _); [eauto|].
  destruct (Qlt_le_dec 600 (clock p - start_time)) as [Hlate|Hearly]; [eauto|].
  cbn [length] in Hlen. rewrite Nat2Z.inj_succ, <- Z.add_1_r, inject_Z_plus in Hlen.
  change (inject_Z 1) with 1%Q in Hlen.
  destruct (IH (next_last p r last_progress) (clock p + 1)%Q) as [why Hwhy].
  - done.
  - intros ->. change (inject_Z (Z.of_nat (length (@nil poll)))) with 0%Q in Hlen. lra.
  - lra.
  - destruct (generate_updates _ _ rest). eauto.
Qed.

(** C6 (amended).  With [last_progress] starting at -1:
    - while nobody writes to the record during a [yield], a status event is
      emitted only when the progress differs from the progress of the event
      emitted last;
    - a turn that finds the record gone, or in status [complete] or [error],
      or the clock more than 600 seconds past the start, ends the stream,
      whatever turns would follow; a turn that does none of these, such as
      one that reads a cancelled record within the 600 seconds, does not
      end it;
    - with a clock read at least one second later in each turn, the stream
      has ended after 602 turns at the latest. *)
Theorem stream_emits_and_ends start_time :
  (∀ polls, Forall calm polls →
     no_repeat (-1) (progress_sent (generate_updates (-1) start_time polls).1)) ∧
  (∀ last_progress pre p post,
     (∀ last_progress, stops last_progress start_time p) →
     generate_updates last_progress start_time (pre ++ p :: post) =
       generate_updates last_progress start_time (pre ++ [p]) ∧
     ∃ why, (generate_updates last_progress start_time (pre ++ p :: post)).2 = Some why) ∧
  (∀ last_progress p rest r,
     at_poll p = Some r → ¬ stops last_progress start_time p →
     generate_updates last_progress start_time (p :: rest) =
       ((if changed r last_progress then [Data r] else []) ++
          (generate_updates (next_last p r last_progress) start_time rest).1,
        (generate_updates (next_last p r last_progress) start_time rest).2)) ∧
  (∀ polls, paced start_time polls → (602 ≤ length polls)%nat →
     ∃ why, (generate_updates (-1) start_time polls).2 = Some why).
Proof.
  split_and!.
  - intros. by apply calm_no_repeat.
  - intros. by apply generate_updates_app_stops.
  - intros. by apply generate_updates_goes_on.
  - intros polls Hpaced Hlen. apply (paced_stops _ _ start_time); [done| |].
    + intros ->. simpl in Hlen. lia.
    + assert (602 <= inject_Z (Z.of_nat (length polls)))%Q
        by (change 602%Q with (inject_Z 602); rewrite <- Zle_Qle; lia).
      lra.
Qed.

(** C10.  For an id with no record in the status store the endpoint answers
    404 and builds no stream. *)
Theorem stream_unknown_id (processing_status : gmap string record)
    processing_id start_time polls :
  processing_status !! processing_id = None →
  stream_processing_progress processing_status processing_id start_time polls =
    Http404 "Processing ID not found".
Proof. intros Hnone. unfold stream_processing_progress. by rewrite Hnone. Qed.

(** *** Concrete runs *)

Definition cancelled_record : record := Rec cancelled 0 None.
Definition quiet_poll (r : record) (clock : Q) : poll := Poll (Some r) r clock.

(** C6 (counterexample).  The record is cancelled.  The first turn emits it
    (its progress 0 differs from -1); neither turn ends the stream, which is
    still going after both.  It goes on until the clock is 600 seconds past
    the start, and then emits the timeout notice. *)
Lemma cancelled_record_does_not_end_stream :
  is_terminal (status_of cancelled_record) = true ∧
  stream_processing_progress {["p1" := cancelled_record]} "p1" 0
    [quiet_poll cancelled_record 0; quiet_poll cancelled_record 1] =
    Streaming [Data cancelled_record] None ∧
  stream_processing_progress {["p1" := cancelled_record]} "p1" 0
    [quiet_poll cancelled_record 0; quiet_poll cancelled_record 1;
     quiet_poll cancelled_record 601] =
    Streaming [Data cancelled_record; TimeoutEvent] (Some TimedOut).
Proof. split_and!; vm_compute; reflexivity. Qed.

Lemma stream_emits_and_ends_witness :
  let finished := Rec complete 100 (Some 0%Q) in
  let polls := [quiet_poll (Rec processing 50 (Some 0%Q)) 1;
                quiet_poll (Rec processing 50 (Some 0%Q)) 2;
                quiet_poll finished 3; quiet_poll finished 4] in
  Forall calm polls ∧
  no_repeat (-1) (progress_sent (generate_updates (-1) 0 polls).1) ∧
  generate_updates (-1) 0 polls =
    ([Data (Rec processing 50 (Some 0%Q)); Data finished], Some Finished).
Proof.
  intros finished polls.
  assert (Forall calm polls) as Hcalm
    by (repeat constructor; intros r [= <-]; done).
  destruct (stream_emits_and_ends 0) as (Hrepeat & _ & _ & _).
  split_and!; [done|by apply Hrepeat|vm_compute; reflexivity].
Defined.

Lemma stream_unknown_id_witness :
  (∅ : gmap string record) !! "nobody" = None ∧
  stream_processing_progress ∅ "nobody" 0 [quiet_poll cancelled_record 0] =
    Http404 "Processing ID not found".
Proof. split; [done|]. by apply stream_unknown_id. Defined.

End ProgressStream.

(** ** The WebSocket registry (server.py, class ConnectionManager) *)

Module ConnectionManager.

Section manager.
(** The [WebSocket] objects; two of them are equal when they are the same
    object. *)
Context {WebSocket : Type} `{EqDecision WebSocket}.
Implicit Types (active_connections : list WebSocket) (websocket : WebSocket).

(** [async def connect(self, websocket)], once [websocket.accept()] has
    returned. *)
Definition connect active_connections websocket : list WebSocket :=
  active_connections ++ [websocket].

(** [list.remove(x)] on a list that holds [x]: its first occurrence goes. *)
Fixpoint remove websocket active_connections : list WebSocket :=
  match active_connections with
  | [] => []
  | w :: rest => if decide (w = websocket) then rest else w :: remove websocket rest
  end.

(** [def disconnect(self, websocket)] *)
Definition disconnect active_connections websocket : list WebSocket :=
  if decide (websocket ∈ active_connections)
  then remove websocket active_connections
  else active_connections.

(** [async def broadcast(self, message)], run with no other coroutine
    touching the registry meanwhile.  [delivers c] tells whether
    [c.send_json(message)] returns; a connection for which it raises is
    noted in [dead_connections], and the noted ones are disconnected after
    the pass over the list. *)
Definition dead_connections (delivers : WebSocket → bool) active_connections
  : list WebSocket :=
  filter (λ c, delivers c = false) active_connections.

Definition broadcast (delivers : WebSocket → bool) active_connections
  : list WebSocket :=
  foldl disconnect active_connections (dead_connections delivers active_connections).

Lemma disconnect_head websocket active_connections :
  disconnect (websocket :: active_connections) websocket = active_connections.
Proof.
  unfold disconnect. rewrite decide_True by apply list_elem_of_here.
  simpl. by rewrite decide_True.
Qed.

Lemma disconnect_cons_ne w websocket active_connections :
  w ≠ websocket →
  disconnect (w :: active_connections) websocket =
    w :: disconnect active_connections websocket.
Proof.
  intros Hne. unfold disconnect.
  destruct (decide (websocket ∈ active_connections)) as [Hin|Hout].
  - rewrite decide_True by (by apply list_elem_of_further).
    simpl. by rewrite decide_False.
  - rewrite decide_False; [done|].
    intros [?|?]%elem_of_cons; [congruence|done].
Qed.

Lemma disconnect_all_cons w active_connections (dead : list WebSocket) :
  w ∉ dead →
  foldl disconnect (w :: active_connections) dead =
    w :: foldl disconnect active_connections dead.
Proof.
  revert active_connections.
  induction dead as [|d dead IH]; intros active_connections Hout; [done|].
  apply not_elem_of_cons in Hout as [Hne Hout].
  simpl. rewrite disconnect_cons_ne by done. by apply IH.
Qed.

(** X1.  One pass of [broadcast] leaves in the registry exactly the
    connections whose send returned, in their order: every connection whose
    send raised is removed, however often it is registered, and no other
    connection is. *)
Theorem broadcast_keeps_the_living (delivers : WebSocket → bool) active_connections :
  broadcast delivers active_connections =
    filter (λ c, delivers c = true) active_connections.
Proof.
  unfold broadcast, dead_connections.
  induction active_connections as [|w rest IH]; [done|].
  destruct (delivers w) eqn:Hw.
  - rewrite filter_cons_False by (by rewrite Hw).
    rewrite filter_cons_True by done.
    rewrite disconnect_all_cons; [by rewrite IH|].
    intros [Hdead _]%list_elem_of_filter. congruence.
  - rewrite filter_cons_True by done.
    rewrite filter_cons_False by (by rewrite Hw).
    simpl. by rewrite disconnect_head.
Qed.

End manager.

End ConnectionManager.

(** ** The request monitor (server.py, class PerformanceMonitor and
    [track_performance]) *)

Module PerformanceMonitor.

(** The three [defaultdict]s, keyed by endpoint name, and the start time.
    Reading a key that is missing gives the default ([[]] or [0]).  Durations
    are floats in the source and rationals here. *)
Record t : Type := Monitor {
  request_times : gmap string (list Q);
  request_counts : gmap string Z;
  errors : gmap string Z;
  start_time : Q
}.

(** [def __init__(self)], with [now] the reading of [time.time()]. *)
Definition __init__ (now : Q) : t := Monitor ∅ ∅ ∅ now.

Definition times_of (m : t) (endpoint : string) : list Q :=
  default [] (request_times m !! endpoint).
Definition count_of (m : t) (endpoint : string) : Z :=
  default 0 (request_counts m !! endpoint).
Definition errors_of (m : t) (endpoint : string) : Z :=
  default 0 (errors m !! endpoint).

(** [times[-1000:]] *)
Definition last_1000 (times : list Q) : list Q :=
  drop (length times - 1000) times.

(** [def record_request(self, endpoint, duration, success=True)] *)
Definition record_request (m : t) (endpoint : string) (duration : Q) (success : bool) : t :=
  let times := times_of m endpoint ++ [duration] in
  Monitor
    (<[endpoint := if decide (1000 < length times)%nat then last_1000 times else times]>
       (request_times m))
    (<[endpoint := count_of m endpoint + 1]> (request_counts m))
    (if success then errors m else <[endpoint := errors_of m endpoint + 1]> (errors m))
    (start_time m).

(** The wrapper [track_performance(func)] around one call of the endpoint
    [func_name]: [result] is what the call returned, [None] when it raised;
    the clock is read before the call and after it.  The wrapper hands the
    result on, or raises the exception again. *)
Definition track_performance {R : Type} (func_name : string) (result : option R)
    (start_time end_time : Q) (m : t) : t * option R :=
  (record_request m func_name (end_time - start_time) (bool_decide (is_Some result)),
   result).

(** [sum(times)], [min(times)], [max(times)] of Python on a list of
    floats. *)
Definition sum (times : list Q) : Q := foldl Qplus 0%Q times.
Definition py_min_of (first : Q) (times : list Q) : Q :=
  foldl (λ least x, if Qlt_le_dec x least then x else least) first times.
Definition py_max_of (first : Q) (times : list Q) : Q :=
  foldl (λ most x, if Qlt_le_dec most x then x else most) first times.

Record endpoint_stats : Type := EndpointStats {
  avg_response_time : Q;
  min_response_time : Q;
  max_response_time : Q;
  total_requests : Z;
  error_count : Z;
  error_rate : Q
}.

(** The entry of [stats] for one endpoint of [self.request_times]; there is
    none when its list of times is empty. *)
Definition stats_of (m : t) (endpoint : string) (times : list Q) : option endpoint_stats :=
  match times with
  | [] => None
  | first :: others =>
      Some (EndpointStats
              (sum times / inject_Z (Z.of_nat (length times)))
              (py_min_of first others)
              (py_max_of first others)
              (count_of m endpoint)
              (errors_of m endpoint)
              (if decide (0 < count_of m endpoint)
               then inject_Z (errors_of m endpoint) / inject_Z (count_of m endpoint)
               else 0))
  end.

Record stats : Type := Stats {
  endpoints : gmap string endpoint_stats;
  uptime : Q;
  all_requests : Z;
  cache_size : nat
}.

(** [def get_stats(self)], with [now] the reading of the clock and
    [cache_size] the value of [len(cache.cache)]. *)
Definition get_stats (m : t) (now : Q) (cache_size : nat) : stats :=
  Stats (map_imap (stats_of m) (request_times m))
        (now - start_time m)
        (map_fold (λ _ n total, total + n) 0 (request_counts m))
        cache_size.

(** A call that went through the wrapper: the endpoint's name, the two
    clock readings and whether the call raised. *)
Record call : Type := Call {
  func_name : string;
  started : Q;
  ended : Q;
  raised : bool
}.

Definition tracked (m : t) (c : call) : t :=
  (track_performance (func_name c) (if raised c then None else Some ())
     (started c) (ended c) m).1.

(** The monitor after the calls of a log, oldest first. *)
Definition replay (now : Q) (log : list call) : t := foldl tracked (__init__ now) log.

Definition calls_to (endpoint : string) (log : list call) : list call :=
  filter (λ c, func_name c = endpoint) log.
Definition duration (c : call) : Q := (ended c - started c)%Q.

Lemma tracked_eq m c :
  tracked m c = record_request m (func_name c) (duration c) (negb (raised c)).
Proof. unfold tracked, track_performance. simpl. by destruct (raised c). Qed.

Lemma replay_snoc now log c : replay now (log ++ [c]) = tracked (replay now log) c.
Proof. unfold replay. by rewrite foldl_app. Qed.

Lemma last_1000_snoc (times : list Q) (d : Q) :
  (let times' := last_1000 times ++ [d] in
   if decide (1000 < length times')%nat then last_1000 times' else times') =
  last_1000 (times ++ [d]).
Proof.
  unfold last_1000. cbn zeta. rewrite !length_app, length_drop. cbn [length].
  destruct (decide (length times < 1000)%nat) as [Hshort|Hlong].
  - replace (length times - 1000)%nat with 0%nat by lia. cbn [drop].
    rewrite decide_False by lia.
    by replace (length times + 1 - 1000)%nat with 0%nat by lia.
  - rewrite decide_True by lia.
    replace (length times - (length times - 1000) + 1 - 1000)%nat with 1%nat by lia.
    replace (length times + 1 - 1000)%nat with (S (length times - 1000)) by lia.
    rewrite !drop_app_le by (rewrite ?length_drop; lia).
    by rewrite drop_drop, Nat.add_1_r.
Qed.

Lemma times_of_record m endpoint d success e :
  times_of (record_request m endpoint d success) e =
    if decide (endpoint = e) then
      let times := times_of m endpoint ++ [d] in
      if decide (1000 < length times)%nat then last_1000 times else times
    else times_of m e.
Proof.
  unfold times_of at 1. unfold record_request. cbn [request_times].
  destruct (decide (endpoint = e)) as [He|He];
    [subst e; by rewrite lookup_insert_eq|by rewrite lookup_insert_ne].
Qed.

Lemma count_of_record m endpoint d success e :
  count_of (record_request m endpoint d success) e =
    if decide (endpoint = e) then count_of m endpoint + 1 else count_of m e.
Proof.
  unfold count_of at 1. unfold record_request. cbn [request_counts].
  destruct (decide (endpoint = e)) as [He|He];
    [subst e; by rewrite lookup_insert_eq|by rewrite lookup_insert_ne].
Qed.

Lemma errors_of_record m endpoint d success e :
  errors_of (record_request m endpoint d success) e =
    if decide (endpoint = e) then
      if success then errors_of m endpoint else errors_of m endpoint + 1
    else errors_of m e.
Proof.
  unfold errors_of at 1. unfold record_request. cbn [errors].
  destruct success, (decide (endpoint = e)) as [He|He]; try done.
  - by subst e.
  - subst e. by rewrite lookup_insert_eq.
  - by rewrite lookup_insert_ne.
Qed.

(** What the monitor holds for an endpoint after the calls of a log. *)
Lemma replay_endpoint now log endpoint :
  let m := replay now log in
  let mine := calls_to endpoint log in
  times_of m endpoint = last_1000 (duration <$> mine) ∧
  count_of m endpoint = Z.of_nat (length mine) ∧
  errors_of m endpoint = Z.of_nat (length (filter (λ c, raised c = true) mine)).
Proof.
  induction log as [|c log IH] using rev_ind.
  { cbn zeta. unfold times_of, count_of, errors_of. simpl. by rewrite !lookup_empty. }
  cbn zeta in *. destruct IH as (Htimes & Hcount & Herrors).
  rewrite replay_snoc, tracked_eq. unfold calls_to. rewrite filter_app.
  fold (calls_to endpoint log).
  rewrite times_of_record, count_of_record, errors_of_record.
  rewrite (filter_cons _ c), filter_nil.
  destruct (decide (func_name c = endpoint)) as [Hmine|Hother].
  - rewrite Hmine, Htimes, Hcount, Herrors.
    rewrite fmap_app, filter_app, !length_app. cbn [fmap list_fmap length].
    split_and!.
    + apply last_1000_snoc.
    + lia.
    + rewrite (filter_cons _ c), filter_nil.
      destruct (raised c) eqn:Hr; cbn [negb].
      * rewrite decide_True by done. simpl. lia.
      * rewrite decide_False by done. simpl. lia.
  - by rewrite app_nil_r.
Qed.

Lemma last_1000_length (times : list Q) : (length (last_1000 times) ≤ 1000)%nat.
Proof. unfold last_1000. rewrite length_drop. lia. Qed.

Lemma last_1000_nil (times : list Q) : last_1000 times = [] → times = [].
Proof.
  unfold last_1000. intros Hnil. apply (f_equal length) in Hnil.
  rewrite length_drop in Hnil. destruct times; [done|simpl in *; lia].
Qed.

(** The sum of the counters grows by one with each request recorded. *)
Lemma sum_counts_insert (counts : gmap string Z) endpoint :
  map_fold (λ _ n total, total + n) 0 (<[endpoint := default 0 (counts !! endpoint) + 1]> counts) =
    map_fold (λ _ n total, total + n) 0 counts + 1.
Proof.
  destruct (counts !! endpoint) as [n|] eqn:Hn; simpl.
  - rewrite <- insert_delete_eq.
    rewrite map_fold_insert_L; [|intros; lia|apply lookup_delete_eq].
    rewrite (map_fold_delete_L _ _ endpoint n counts); [cbv beta; lia|intros; lia|done].
  - rewrite map_fold_insert_L; [cbv beta; lia|intros; lia|done].
Qed.

(** X2.  After any sequence of calls through [track_performance], the
    monitor holds for each endpoint: the durations of its last 1000 calls, in
    the order of the calls; the number of all its calls; the number of its
    calls that raised. *)
Theorem tracked_calls_recorded now log endpoint :
  let m := replay now log in
  let mine := calls_to endpoint log in
  times_of m endpoint = drop (length mine - 1000) (duration <$> mine) ∧
  (length (times_of m endpoint) ≤ 1000)%nat ∧
  count_of m endpoint = Z.of_nat (length mine) ∧
  errors_of m endpoint = Z.of_nat (length (filter (λ c, raised c = true) mine)).
Proof.
  intros m mine. destruct (replay_endpoint now log endpoint) as (Htimes & Hcount & Herrors).
  fold m mine in Htimes, Hcount, Herrors. split_and!; [|  |done|done].
  - rewrite Htimes. unfold last_1000. by rewrite length_fmap.
  - rewrite Htimes. apply last_1000_length.
Qed.

(** X3.  In the statistics of a monitor fed by [track_performance], every
    endpoint listed has at least one request, no more errors than requests,
    and an error rate between 0 and 1. *)
Theorem endpoint_stats_bounds now log t cache_size endpoint s :
  endpoints (get_stats (replay now log) t cache_size) !! endpoint = Some s →
  1 ≤ total_requests s ∧
  0 ≤ error_count s ≤ total_requests s ∧
  (0 <= error_rate s <= 1)%Q.
Proof.
  unfold get_stats. cbn [endpoints]. rewrite map_lookup_imap.
  destruct (replay_endpoint now log endpoint) as (Htimes & Hcount & Herrors).
  set (m := replay now log) in *. set (mine := calls_to endpoint log) in *.
  destruct (request_times m !! endpoint) as [times|] eqn:Hlook; [|done].
  unfold times_of in Htimes. rewrite Hlook in Htimes. simpl in Htimes.
  cbn [mbind option_bind]. unfold stats_of.
  destruct times as [|first others]; [done|]. intros [= <-].
  cbn [total_requests error_count error_rate].
  assert (1 ≤ count_of m endpoint) as Hpos.
  { rewrite Hcount. destruct mine as [|c mine']; [|simpl; lia].
    by apply (f_equal length) in Htimes. }
  assert (0 ≤ errors_of m endpoint ≤ count_of m endpoint) as Herr.
  { rewrite Herrors, Hcount. split; [lia|].
    apply inj_le, length_filter. }
  rewrite decide_True by lia.
  assert (0 < inject_Z (count_of m endpoint))%Q as Hq
    by (change 0%Q with (inject_Z 0); rewrite <- Zlt_Qlt; lia).
  split_and!; [done|lia|lia| |].
  - apply Qle_shift_div_l; [done|]. rewrite Qmult_0_l.
    change 0%Q with (inject_Z 0). rewrite <- Zle_Qle. lia.
  - apply Qle_shift_div_r; [done|]. rewrite Qmult_1_l. rewrite <- Zle_Qle. lia.
Qed.

(** X4.  The total of the statistics counts every call of the log, also the
    calls whose durations have been dropped from the lists of times. *)
Theorem all_requests_counts_every_call now log t cache_size :
  all_requests (get_stats (replay now log) t cache_size) = Z.of_nat (length log).
Proof.
  unfold get_stats. cbn [all_requests].
  induction log as [|c log IH] using rev_ind; [done|].
  rewrite replay_snoc, tracked_eq, length_app. cbn [length].
  unfold record_request. cbn [request_counts]. unfold count_of.
  rewrite sum_counts_insert, IH. lia.
Qed.

(** Three calls of the status endpoint, the second of which raised. *)
Definition three_calls : list call :=
  [Call "get_processing_status" 0 1 false;
   Call "get_processing_status" 2 4 true;
   Call "get_processing_status" 5 6 false].

Lemma endpoint_stats_bounds_witness :
  ∃ s,
    endpoints (get_stats (replay 0 three_calls) 7 0) !! "get_processing_status" = Some s ∧
    total_requests s = 3 ∧ error_count s = 1 ∧ (0 <= error_rate s <= 1)%Q.
Proof.
  destruct (endpoints (get_stats (replay 0 three_calls) 7 0) !! "get_processing_status")
    as [s|] eqn:Hstats; [|vm_compute in Hstats; discriminate].
  exists s. split; [done|].
  destruct (endpoint_stats_bounds _ _ _ _ _ _ Hstats) as (_ & _ & Hrate).
  vm_compute in Hstats. injection Hstats as <-. by split_and!.
Defined.

End PerformanceMonitor.

(** ** The result cache at its edges (server.py, class AdvancedCache) *)

Module CacheEdges.
Import AdvancedCache.

(** One call of [set]: the key, the value and the two readings of the
    clock. *)
Record set_call (V : Type) : Type := SetCall {
  key : string;
  value : V;
  current_time : Z;
  cleanup_time : Z
}.
Arguments SetCall {V} _ _ _ _.
Arguments key {V} _.
Arguments value {V} _.
Arguments current_time {V} _.
Arguments cleanup_time {V} _.

Section edges.
Context {V : Type}.
Implicit Types (c : t V) (w : set_call V).

(** Calls of [set] one after the other. *)
Fixpoint set_all (fuel : nat) c (writes : list (set_call V)) : option (t V) :=
  match writes with
  | [] => Some c
  | w :: rest =>
      c1 ← set fuel c (key w) (value w) (current_time w) (cleanup_time w);
      set_all fuel c1 rest
  end.

Definition queued w : string * Z := (key w, current_time w).

Lemma evict_negative fuel c : max_size c < 0 → evict fuel c = None.
Proof.
  revert c. induction fuel as [|fuel IH]; intros c Hneg; simpl.
  - unfold over_watermark. rewrite bool_decide_eq_true_2; [done|lia].
  - unfold over_watermark. rewrite bool_decide_eq_true_2 by lia.
    apply IH. by destruct (popleft_params c) as [-> _].
Qed.

(** X5.  A cache built with a negative [max_size] never returns from a
    [set]: every insert starts the cleanup pass, whose loop goes on popping
    the queue when the map is empty, and spins once the queue is empty. *)
Theorem negative_max_size_set_spins fuel c k v now now' :
  max_size c < 0 → set fuel c k v now now' = None.
Proof.
  intros Hneg. unfold set, _cleanup. cbn [store max_size cache].
  rewrite decide_True by lia. by apply evict_negative.
Qed.

(** X6.  While the keys written and the keys held number at most
    [max_size], no [set] runs the cleanup pass and each one appends an entry
    to the queue: the queue grows by one entry per call, whereas the map
    holds one entry per key. *)
Theorem queue_grows_with_every_set c (writes : list (set_call V)) :
  Z.of_nat (size (dom (cache c) ∪ list_to_set (key <$> writes) : gset string))
    ≤ max_size c →
  ∃ c', set_all 0 c writes = Some c' ∧
        access_times c' = access_times c ++ (queued <$> writes) ∧
        dom (cache c') = dom (cache c) ∪ list_to_set (key <$> writes) ∧
        max_size c' = max_size c.
Proof.
  revert c. induction writes as [|w writes IH]; intros c Hsize.
  - exists c. cbn [fmap list_fmap list_to_set].
    split_and!; [done|by rewrite app_nil_r|by rewrite (right_id_L ∅ (∪))|done].
  - cbn [fmap list_fmap list_to_set] in Hsize. cbn [set_all].
    assert (set 0 c (key w) (value w) (current_time w) (cleanup_time w) =
            Some (store c (key w) (value w) (current_time w))) as ->.
    { unfold set. cbn [store max_size cache]. rewrite decide_False; [done|].
      rewrite <- size_dom, dom_insert_L.
      assert (size ({[key w]} ∪ dom (cache c) : gset string) ≤
              size (dom (cache c) ∪ ({[key w]} ∪ list_to_set (key <$> writes)) : gset string))%nat
        by (apply subseteq_size, union_least;
            [apply union_subseteq_r', union_subseteq_l|apply union_subseteq_l]).
      lia. }
    cbn [mbind option_bind].
    destruct (IH (store c (key w) (value w) (current_time w)))
      as (c' & Hall & Hqueue & Hdom & Hmax).
    { cbn [store max_size cache]. rewrite dom_insert_L.
      by rewrite (comm_L (∪) {[key w]}), <- (assoc_L (∪)). }
    exists c'. split_and!; [done| | |done].
    + rewrite Hqueue. cbn [store access_times fmap list_fmap].
      by rewrite <- app_assoc.
    + rewrite Hdom. cbn [store cache fmap list_fmap list_to_set].
      by rewrite dom_insert_L, (comm_L (∪) {[key w]}), <- (assoc_L (∪)).
Qed.

End edges.

Lemma negative_max_size_set_spins_witness :
  max_size (__init__ (V:=Z) (-1) 600) < 0 ∧
  set 1000 (__init__ (-1) 600) "k" 1 0 0 = None.
Proof.
  assert (max_size (__init__ (V:=Z) (-1) 600) < 0) as Hneg by (simpl; lia).
  split; [exact Hneg|]. by apply negative_max_size_set_spins.
Defined.

(** The same key written three times into a cache for two entries. *)
Lemma queue_grows_with_every_set_witness :
  let writes := [SetCall "k" 1 0 0; SetCall "k" 2 1 1; SetCall "k" 3 2 2] in
  Z.of_nat (size (dom (cache (__init__ (V:=Z) 2 600)) ∪
                  list_to_set (key <$> writes) : gset string)) ≤ 2 ∧
  ∃ c', set_all 0 (__init__ 2 600) writes = Some c' ∧
        access_times c' = [("k", 0); ("k", 1); ("k", 2)] ∧
        size (cache c') = 1%nat.
Proof.
  intros writes.
  assert (Z.of_nat (size (dom (cache (__init__ (V:=Z) 2 600)) ∪
                          list_to_set (key <$> writes) : gset string)) ≤ 2) as Hsize
    by (vm_compute; discriminate).
  split; [exact Hsize|].
  destruct (queue_grows_with_every_set (__init__ 2 600) writes Hsize)
    as (c' & Hall & Hqueue & Hdom & _).
  exists c'. split_and!; [done|done|].
  rewrite <- size_dom, Hdom. vm_compute. reflexivity.
Defined.

End CacheEdges.

(** ** The chunk endpoint at its edges (server.py, [upload_file_chunk]) *)

Module ChunkEdges.
Import ChunkStore.

Section edges.
Variable TEMP_DIR : string.
Implicit Types (st : fs) (rq : request) (dir : gmap Z bytes).

(** The staging directory of a request once its chunk file is written. *)
Definition with_chunk st rq : gmap Z bytes :=
  <[chunk_index rq := content rq]> (staged st (file_id rq)).

Lemma with_chunk_size st rq : (1 ≤ size (with_chunk st rq))%nat.
Proof.
  unfold with_chunk.
  destruct (staged st (file_id rq) !! chunk_index rq) as [old|] eqn:Hold.
  - rewrite <- insert_delete_eq, map_size_insert_None by apply lookup_delete_eq. lia.
  - rewrite map_size_insert_None by done. lia.
Qed.

Lemma copy_chunks_missing dir (indices : list Z) (written : bytes) j :
  j ∈ indices → dir !! j = None →
  ∃ partial, copy_chunks dir indices written = inr partial.
Proof.
  revert written. induction indices as [|i rest IH]; intros written Hin Hnone.
  - by apply elem_of_nil in Hin.
  - simpl. destruct (dir !! i) as [chunk_data|] eqn:Hi; [|eauto].
    apply elem_of_cons in Hin as [->|Hin]; [congruence|]. by apply IH.
Qed.

(** X7.  A request that announces no chunks, or a negative number of them,
    never completes an upload: its chunk is staged all the same, no final
    file is written, and the answer is the 500 of a division by zero when
    [total_chunks] is 0, and a progress report otherwise. *)
Theorem no_chunks_announced st rq :
  total_chunks rq ≤ 0 →
  let after := upload_file_chunk TEMP_DIR st rq in
  staged after.1 (file_id rq) !! chunk_index rq = Some (content rq) ∧
  temp_files after.1 = temp_files st ∧
  after.2 =
    if decide (total_chunks rq = 0)
    then Http500 "Chunk upload error: division by zero"
    else Ok (ChunkReceived (chunk_index rq) (total_chunks rq)
               (Z.of_nat (size (with_chunk st rq)))
               (progress_of (Z.of_nat (size (with_chunk st rq))) (total_chunks rq))).
Proof.
  intros Hnone. pose proof (with_chunk_size st rq) as Hsize.
  unfold upload_file_chunk. fold (with_chunk st rq).
  rewrite decide_False by lia.
  destruct (decide (total_chunks rq = 0)); cbn [fst snd];
    (split_and!; [|done|done]);
    rewrite staged_insert_eq; unfold with_chunk; by rewrite lookup_insert_eq.
Qed.

(** X8.  The test for completeness counts the chunk files and does not
    look at their indices.  When the count reaches [total_chunks] while a
    chunk of the range [0 .. total_chunks - 1] is missing (a chunk was sent
    under an index outside the range), the call fails with a 500; it has by
    then opened the final file, which it leaves holding the chunks before
    the missing one, and the staging directory stays. *)
Theorem stray_index_breaks_assembly st rq j :
  Z.of_nat (size (with_chunk st rq)) = total_chunks rq →
  0 ≤ j < total_chunks rq → with_chunk st rq !! j = None →
  let after := upload_file_chunk TEMP_DIR st rq in
  (∃ detail, after.2 = Http500 detail) ∧
  chunk_dirs after.1 !! file_id rq = Some (with_chunk st rq) ∧
  ∃ partial,
    copy_chunks (with_chunk st rq) (seqZ 0 (total_chunks rq)) [] = inr partial ∧
    temp_files after.1 !! filename rq = Some partial.
Proof.
  intros Hcount Hj Hnone.
  destruct (copy_chunks_missing (with_chunk st rq) (seqZ 0 (total_chunks rq)) [] j)
    as [partial Hcopy]; [apply elem_of_seqZ; lia|done|].
  unfold upload_file_chunk. fold (with_chunk st rq).
  rewrite decide_True by done. rewrite Hcopy. cbn [fst snd chunk_dirs temp_files].
  split_and!; [by eexists|by rewrite lookup_insert_eq|].
  exists partial. by rewrite lookup_insert_eq.
Qed.

End edges.

Lemma no_chunks_announced_witness :
  let rq := Request [Byte.x61] 0 0 "f" "a.csv" in
  total_chunks rq ≤ 0 ∧
  upload_file_chunk "/tmp" empty_fs rq =
    (Fs {["f" := {[0 := [Byte.x61]]}]} ∅, Http500 "Chunk upload error: division by zero").
Proof.
  intros rq. assert (total_chunks rq ≤ 0) as Hnone by (simpl; lia).
  split; [exact Hnone|].
  destruct (no_chunks_announced "/tmp" empty_fs rq Hnone) as (_ & _ & Hanswer).
  vm_compute in Hanswer. vm_compute. by rewrite <- Hanswer.
Defined.

(** A client that numbers its two chunks 1 and 2. *)
Lemma stray_index_breaks_assembly_witness :
  let st := (upload_file_chunk "/tmp" empty_fs (Request [Byte.x61] 1 2 "f" "a.csv")).1 in
  let rq := Request [Byte.x62] 2 2 "f" "a.csv" in
  Z.of_nat (size (with_chunk st rq)) = total_chunks rq ∧
  0 ≤ 0 < total_chunks rq ∧ with_chunk st rq !! 0 = None ∧
  (∃ detail, (upload_file_chunk "/tmp" st rq).2 = Http500 detail) ∧
  temp_files (upload_file_chunk "/tmp" st rq).1 !! "a.csv" = Some [].
Proof.
  intros st rq.
  assert (Z.of_nat (size (with_chunk st rq)) = total_chunks rq) as Hcount
    by (vm_compute; reflexivity).
  assert (0 ≤ 0 < total_chunks rq) as Hj by (simpl; lia).
  assert (with_chunk st rq !! 0 = None) as Hnone by (vm_compute; reflexivity).
  destruct (stray_index_breaks_assembly "/tmp" st rq 0 Hcount Hj Hnone)
    as (Hanswer & _ & partial & _ & _).
  do 3 (split; [done|]). split; [exact Hanswer|vm_compute; reflexivity].
Defined.

End ChunkEdges.

(** ** How a pipeline run ends (server.py, [process_large_file] and its
    parsers, [_stream_large_json], [cancel_processing]) *)

Module PipelineOutcome.
Import Status Pipeline.

(** The writes that carry no status: [status[...]["progress"] = p] and
    [update({"progress": p, ...})]. *)
Definition keeps_status (w : write) : Prop :=
  match w with
  | SetProgress _ | Update None _ => True
  | _ => False
  end.

(** The runs of a parser that go through [_process_dataframe] up to its
    last write. *)
Definition completes (p : parser_run) : bool :=
  match p with
  | CsvPandas reached => bool_decide (3 ≤ reached)%nat
  | Json file_size (JsonList reached) _ =>
      bool_decide (file_size < 50 * 1024 * 1024) && bool_decide (3 ≤ reached)%nat
  | _ => false
  end.

Lemma after_app r ws1 ws2 : after r (ws1 ++ ws2) = after (after r ws1) ws2.
Proof. unfold after. apply foldl_app. Qed.

Lemma after_keeps_status r ws :
  Forall keeps_status ws →
  status_of (after r ws) = status_of r ∧ start_time (after r ws) = start_time r.
Proof.
  intros Hws. revert r. induction Hws as [|w ws Hw _ IH]; intros r; [done|].
  change (after r (w :: ws)) with (after (apply_write w r) ws).
  destruct (IH (apply_write w r)) as [-> ->].
  by destruct w as [|?|[?|] ?].
Qed.

Lemma save_chunks_keeps_status file_size total_size chunks :
  Forall keeps_status (save_chunks file_size total_size chunks).
Proof.
  revert total_size. induction chunks as [|chunk chunks IH]; intros total_size;
    [by constructor|].
  simpl. by constructor.
Qed.

Lemma take_keeps_status n ws : Forall keeps_status ws → Forall keeps_status (take n ws).
Proof. apply Forall_take. Qed.

(** The progress the upload loop stores last is the progress of all the
    bytes read. *)
Lemma after_save_chunks r file_size total_size chunks :
  chunks ≠ [] →
  progress (after r (save_chunks file_size total_size chunks)) =
    upload_progress (total_size + Z.of_nat (length (concat chunks))) file_size.
Proof.
  revert r total_size. induction chunks as [|chunk chunks IH]; intros r total_size Hsome;
    [done|].
  cbn [save_chunks concat]. rewrite length_app, Nat2Z.inj_add, Z.add_assoc.
  change (after r (?w :: ?ws)) with (after (apply_write w r) ws).
  destruct chunks as [|chunk' chunks]; [|by apply IH].
  cbn [concat length save_chunks]. by rewrite Z.add_0_r.
Qed.

(** X21.  When the upload loop has read the file, the progress it has
    stored last is [min(50, read / size * 50)] for the number of bytes read
    and the size the client declared: at most 50, and exactly 50 when at
    least the declared size was read; the record is still [uploading]. *)
Theorem upload_progress_at_the_end now file_size (chunks : list bytes) :
  0 < file_size → chunks ≠ [] →
  let read := Z.of_nat (length (concat chunks)) in
  let r := after (Rec uploading 0 (Some now)) (save_chunks file_size 0 chunks) in
  status_of r = uploading ∧
  progress r = upload_progress read file_size ∧
  (progress r <= 50)%Q ∧
  (file_size ≤ read → progress r = 50%Q).
Proof.
  intros Hsize Hsome read r.
  assert (progress r = upload_progress read file_size) as Hprogress
    by (unfold r; by rewrite after_save_chunks).
  split_and!; [|done| |].
  - unfold r. by destruct (after_keeps_status (Rec uploading 0 (Some now)) _
                             (save_chunks_keeps_status file_size 0 chunks)) as [-> _].
  - rewrite Hprogress. apply upload_progress_le_50.
  - intros Hall. rewrite Hprogress. unfold upload_progress, py_min.
    rewrite decide_True by done. destruct (Qlt_le_dec _ 50) as [Hless|]; [|done].
    exfalso.
    assert (0 < inject_Z file_size)%Q as Hpos
      by (change 0%Q with (inject_Z 0); by rewrite <- Zlt_Qlt).
    assert (1 <= inject_Z read / inject_Z file_size)%Q as Hratio.
    { apply Qle_shift_div_l; [done|]. rewrite Qmult_1_l. by rewrite <- Zle_Qle. }
    set (q := (inject_Z read / inject_Z file_size)%Q) in *. lra.
Qed.

Section outcome.
Context {J : Type}.
Variable json_loads : string → option J.
Variable strip : string → string.

Lemma read_lines_keeps_status lines line_num line_count parsed_objects :
  Forall keeps_status
    (stored (JsonLines.read_lines json_loads strip lines line_num line_count
               parsed_objects).1).
Proof.
  revert line_num line_count parsed_objects.
  induction lines as [|line lines IH]; intros line_num line_count parsed_objects;
    [by constructor|].
  cbn [JsonLines.read_lines]. case_decide; [apply IH|].
  destruct (json_loads (strip line)); [|apply IH].
  specialize (IH (line_num + 1) line_num (parsed_objects + 1)).
  destruct (JsonLines.read_lines _ _ lines _ _ _) as [more counts]. cbn [fst] in *.
  unfold stored in *. case_decide; [|done].
  simpl. by constructor.
Qed.

(** The status a parser leaves under a record that is [processing]. *)
Lemma parser_status r p :
  status_of r = processing →
  status_of (after r (parser_writes json_loads strip p)) =
    if completes p then complete else processing.
Proof.
  intros Hr.
  assert (∀ ws, Forall keeps_status ws → status_of (after r ws) = processing) as Hkeep
    by (intros ws Hws; by destruct (after_keeps_status r ws Hws) as [-> _]).
  assert (∀ reached,
    status_of (after r (_process_dataframe reached)) =
      if bool_decide (3 ≤ reached)%nat then complete else processing) as Hframe.
  { intros [|[|[|reached]]]; try (apply Hkeep; by repeat constructor).
    rewrite bool_decide_eq_true_2 by lia.
    unfold _process_dataframe. cbn [take]. by rewrite take_nil. }
  destruct p as [reached|reached|chunks_read|sheets started|file_size document lines|];
    cbn [parser_writes completes].
  - apply Hframe.
  - apply Hkeep. unfold _process_dask_dataframe. apply Forall_take. by repeat constructor.
  - apply Hkeep. unfold _process_csv_chunks. by apply Forall_fmap, Forall_true.
  - apply Hkeep. unfold _process_excel_file. by apply Forall_fmap, Forall_true.
  - unfold _process_json_file. case_decide as Hsmall.
    + rewrite bool_decide_eq_true_2 by done.
      destruct document as [|reached|]; cbn [andb]; [done|apply Hframe|done].
    + rewrite (bool_decide_eq_false_2 _ Hsmall).
      destruct document; cbn [andb]; apply Hkeep, read_lines_keeps_status.
  - done.
Qed.

(** X9.  The status a run leaves in its record, when nothing else writes
    to the record: [error] when the upload loop raised or when the generator
    raised at its end; [complete] when the file went through
    [_process_dataframe] to its last write (a CSV file read whole by pandas,
    or a JSON file below 50MB holding a list); [processing] in every other
    case: after the dask reader, the chunked CSV reader, the Excel reader and
    the JSON-Lines reader have ended, and after any failure inside a
    parser. *)
Theorem final_status_of_a_run now file_size chunks saved p cleanup_raises :
  let run := _process_file_background json_loads strip now file_size chunks saved p
               cleanup_raises in
  status_of (after run.1 run.2) =
    if cleanup_raises || negb saved then error
    else if completes p then complete else processing.
Proof.
  unfold _process_file_background, process_large_file. cbn [fst snd].
  set (r0 := Rec uploading 0 (Some now)).
  destruct cleanup_raises; [by rewrite after_app|]. cbn [orb].
  rewrite app_nil_r, after_app.
  destruct saved; [|done]. cbn [negb].
  change (Update (Some processing) 50 :: parser_writes json_loads strip p)
    with ([Update (Some processing) 50] ++ parser_writes json_loads strip p).
  rewrite after_app. by apply parser_status.
Qed.

(** X10.  A JSON-Lines run whose record is cancelled while it reads ends
    with an error event, not with [complete]: [cancel_processing] stores a
    record without a start time, the writes of the reader keep the record
    without one, and the final event needs it. *)
Theorem cancelled_stream_ends_in_error (processing_status : gmap string record)
    processing_id (r : record) lines line_num line_count parsed_objects now :
  processing_status !! processing_id = Some r →
  let cancelled_store := (cancel_processing processing_status processing_id).1 in
  let writes := stored (JsonLines.read_lines json_loads strip lines line_num line_count
                          parsed_objects).1 in
  let at_end := foldl (λ store w, write_to processing_id w store) cancelled_store writes in
  ∃ r',
    at_end !! processing_id = Some r' ∧
    status_of r' = cancelled ∧
    ∀ all_lines,
      JsonLines.final_event
        (JsonLines._stream_large_json json_loads strip all_lines (start_time r') now) =
      Some (JsonLines.ErrorEvent "JSON streaming error: 'start_time'").
Proof.
  intros Hr cancelled_store writes at_end.
  assert (Forall keeps_status writes) as Hws by apply read_lines_keeps_status.
  assert (cancelled_store !! processing_id = Some was_cancelled) as Hstart.
  { unfold cancelled_store, cancel_processing. rewrite Hr. cbn [fst].
    apply lookup_insert_eq. }
  assert (at_end !! processing_id = Some (after was_cancelled writes)) as Hend.
  { unfold at_end. clearbody cancelled_store writes. clear at_end.
    revert cancelled_store Hstart. generalize was_cancelled.
    induction Hws as [|w ws Hw _ IH]; intros r0 store Hstore; [done|].
    cbn [foldl]. change (after r0 (w :: ws)) with (after (apply_write w r0) ws).
    apply IH. destruct w as [|?|[?|] ?]; try done;
      unfold write_to; by rewrite lookup_alter_eq, Hstore. }
  destruct (after_keeps_status was_cancelled writes Hws) as [Hstatus Htime].
  exists (after was_cancelled writes). split_and!; [done|done|].
  intros all_lines. rewrite Htime. unfold JsonLines._stream_large_json.
  destruct (JsonLines.read_lines _ _ all_lines 1 0 0) as [acts [c k]].
  cbn [start_time was_cancelled]. unfold JsonLines.final_event. by rewrite last_snoc.
Qed.

End outcome.

Lemma upload_progress_at_the_end_witness :
  let chunks := [[Byte.x61; Byte.x62]; [Byte.x63]] in
  0 < 3 ∧ chunks ≠ [] ∧
  progress (after (Rec uploading 0 (Some 0%Q)) (save_chunks 3 0 chunks)) = 50%Q.
Proof.
  intros chunks. assert (0 < 3) as Hsize by lia.
  assert (chunks ≠ []) as Hsome by done.
  destruct (upload_progress_at_the_end 0%Q 3 chunks Hsize Hsome) as (_ & _ & _ & Hall).
  split; [exact Hsize|]. split; [exact Hsome|]. apply Hall. simpl. lia.
Defined.

Lemma cancelled_stream_ends_in_error_witness :
  let store : gmap string record := {["p1" := Rec processing 50 (Some 0%Q)]} in
  store !! "p1" = Some (Rec processing 50 (Some 0%Q)) ∧
  ∃ r',
    foldl (λ store w, write_to "p1" w store) (cancel_processing store "p1").1
      (stored (JsonLines.read_lines JsonLines.only_braces id ["{}"; "{}"] 9999 9998 9998).1)
      !! "p1" = Some r' ∧
    r' = Rec cancelled (py_min 90 (inject_Z 10000 / 100000 * 90)%Q) None ∧
    JsonLines.final_event
      (JsonLines._stream_large_json JsonLines.only_braces id ["{}"; "{}"] (start_time r') 5%Q) =
    Some (JsonLines.ErrorEvent "JSON streaming error: 'start_time'").
Proof.
  intros store.
  assert (store !! "p1" = Some (Rec processing 50 (Some 0%Q))) as Hr by done.
  split; [exact Hr|].
  destruct (cancelled_stream_ends_in_error JsonLines.only_braces id store "p1" _
              ["{}"; "{}"] 9999 9998 9998 5%Q Hr) as (r' & Hend & _ & Hfinal).
  exists r'. split; [exact Hend|]. split; [|apply Hfinal].
  vm_compute in Hend. injection Hend as <-. vm_compute. reflexivity.
Defined.

End PipelineOutcome.

(** ** The counters of the JSON-Lines reader (server.py,
    [_stream_large_json]) *)

Module JsonLinesCounts.
Import Status JsonLines.


Section counts.
Context {J : Type}.
Variable json_loads : string → option J.
Variable strip : string → string.




End counts.

End JsonLinesCounts.

(** ** A stream whose record does not end it (server.py,
    [stream_processing_progress]) *)

Module StreamWait.
Import Status ProgressStream.

(** Turns during which the record reads [r] and nobody writes to it, with
    the clock readings given. *)
Definition watching (r : record) (clocks : list Q) : list poll :=
  (λ reading, Poll (Some r) r reading) <$> clocks.

Lemma unchanged r : changed r (progress r) = false.
Proof. unfold changed. by rewrite (proj2 (Qeq_bool_iff _ _) (Qeq_refl _)). Qed.

(** Once the progress of [r] has been sent, the turns within the 600 seconds
    send nothing and leave the stream open. *)
Lemma watching_sends_nothing r start_time clocks rest :
  ends_stream (status_of r) = false →
  Forall (λ reading, (reading - start_time <= 600)%Q) clocks →
  generate_updates (progress r) start_time (watching r clocks ++ rest) =
    generate_updates (progress r) start_time rest.
Proof.
  intros Hgoes Hearly. induction Hearly as [|reading clocks Hreading _ IH]; [done|].
  cbn [watching fmap list_fmap app generate_updates at_poll].
  unfold seen, next_last. rewrite unchanged, Hgoes. cbn [clock].
  destruct (Qlt_le_dec 600 (reading - start_time)) as [?|_]; [lra|].
  fold (watching r clocks). rewrite IH.
  by destruct (generate_updates (progress r) start_time rest).
Qed.

(** X23.  While the record of an id keeps a status other than [complete]
    and [error] and nobody writes to it (a cancelled record; the record of a
    run that ended in status [processing]), its stream sends the record once
    and then nothing, and stays open through every turn within 600 seconds of
    its start; the first turn after that sends the timeout notice and ends
    the stream. *)
Theorem stream_waits_for_the_timeout r start_time first clocks :
  ends_stream (status_of r) = false → ¬ (progress r == -1)%Q →
  Forall (λ reading, (reading - start_time <= 600)%Q) (first :: clocks) →
  generate_updates (-1) start_time (watching r (first :: clocks)) = ([Data r], None) ∧
  ∀ late rest, (600 < late - start_time)%Q →
    generate_updates (-1) start_time (watching r (first :: clocks ++ late :: rest)) =
      ([Data r; TimeoutEvent], Some TimedOut).
Proof.
  intros Hgoes Hnew Hearly. apply Forall_cons in Hearly as [Hfirst Hearly].
  assert (changed r (-1) = true) as Hchanged by (by apply changed_true).
  assert (∀ rest,
    generate_updates (-1) start_time (watching r (first :: clocks) ++ rest) =
      ((Data r :: (generate_updates (progress r) start_time rest).1),
       (generate_updates (progress r) start_time rest).2)) as Hrun.
  { intros rest. cbn [watching fmap list_fmap app generate_updates at_poll].
    unfold seen, next_last. rewrite Hchanged. cbn [at_resume clock]. rewrite Hgoes.
    destruct (Qlt_le_dec 600 (first - start_time)) as [?|_]; [lra|].
    fold (watching r clocks). rewrite watching_sends_nothing by done.
    by destruct (generate_updates (progress r) start_time rest). }
  split.
  - specialize (Hrun []). by rewrite app_nil_r in Hrun.
  - intros late rest Hlate.
    replace (watching r (first :: clocks ++ late :: rest))
      with (watching r (first :: clocks) ++ watching r (late :: rest))
      by (unfold watching; by rewrite <- fmap_app).
    rewrite Hrun. cbn [watching fmap list_fmap generate_updates at_poll].
    unfold seen. rewrite unchanged, Hgoes. cbn [clock].
    destruct (Qlt_le_dec 600 (late - start_time)) as [_|?]; [done|lra].
Qed.

(** A cancelled record watched for ten minutes. *)
Lemma stream_waits_for_the_timeout_witness :
  let r := Rec cancelled 0 None in
  ends_stream (status_of r) = false ∧ ¬ (progress r == -1)%Q ∧
  Forall (λ reading, (reading - 0 <= 600)%Q) [1; 300; 600]%Q ∧
  generate_updates (-1) 0 (watching r [1; 300; 600]%Q) = ([Data r], None) ∧
  generate_updates (-1) 0 (watching r [1; 300; 600; 601]%Q) =
    ([Data r; TimeoutEvent], Some TimedOut).
Proof.
  intros r.
  assert (ends_stream (status_of r) = false) as Hgoes by done.
  assert (¬ (progress r == -1)%Q) as Hnew by done.
  assert (Forall (λ reading, (reading - 0 <= 600)%Q) [1; 300; 600]%Q) as Hearly
    by (repeat constructor; by vm_compute).
  destruct (stream_waits_for_the_timeout r 0 1 [300; 600]%Q Hgoes Hnew Hearly)
    as [Hopen Hends].
  split; [exact Hgoes|]. split; [exact Hnew|]. split; [exact Hearly|].
  split; [exact Hopen|]. apply (Hends 601%Q []). by vm_compute.
Defined.

End StreamWait.

(** ** Validation and the status endpoint (server.py, [validate_file],
    [validate_file_upload], [_estimate_processing_time],
    [_get_upload_recommendations], [get_processing_status]) *)

Module Intake.
Import Status.

Definition MAX_FILE_SIZE : Z := 200 * 1024 * 1024.

(** What a call gives: a value, an [HTTPException], or the [TypeError] of a
    comparison with [None]. *)
Inductive outcome (A : Type) : Type :=
| Returns (a : A)
| HTTPException (status_code : Z)
| TypeError.
Arguments Returns {A} _.
Arguments HTTPException {A} _.
Arguments TypeError {A}.

(** The fields of an [UploadFile] the code reads; [size] is [None] when the
    client sent no length. *)
Record UploadFile : Type := File {
  filename : string;
  size : option Z;
  content_type : option string
}.

Record file_info : Type := FileInfo {
  info_filename : string;
  info_size : Z;
  extension : string;
  info_content_type : option string
}.

(** The three parsers [process_large_file] chooses from. *)
Inductive parser : Type := CsvFile | ExcelFile | JsonFile.

(** The chain [if file_extension in ['.csv', '.tsv', '.txt'] ... elif
    file_extension in ['.xlsx', '.xls'] ... elif file_extension == '.json']
    of [process_large_file]; [None] when no branch is taken. *)
Definition parser_for (file_extension : string) : option parser :=
  if decide (file_extension ∈ [".csv"; ".tsv"; ".txt"]) then Some CsvFile
  else if decide (file_extension ∈ [".xlsx"; ".xls"]) then Some ExcelFile
  else if decide (file_extension = ".json") then Some JsonFile
  else None.

(** The parser a run of the pipeline went through. *)
Definition parser_of (p : Pipeline.parser_run) : option parser :=
  match p with
  | Pipeline.CsvPandas _ | Pipeline.CsvDask _ | Pipeline.CsvChunks _ => Some CsvFile
  | Pipeline.Excel _ _ => Some ExcelFile
  | Pipeline.Json _ _ _ => Some JsonFile
  | Pipeline.NoParser => None
  end.

Definition allowed_extensions : list string :=
  [".csv"; ".xlsx"; ".xls"; ".json"; ".tsv"; ".txt"].

(** The time estimate: [estimated_human] is [f"{m}m {s}s"] or [f"{s}s"]. *)
Inductive human : Type :=
| MinutesSeconds (m s : Z)
| Seconds (s : Z).

Record estimate : Type := Estimate {
  estimated_seconds : Z;
  estimated_human : human;
  confidence : string;
  factors : list string
}.

(** [max(a, b)], [int(x)], [x // y] and [x % y] of Python on floats, as
    rationals. *)
Definition py_max (a b : Q) : Q := if Qlt_le_dec a b then b else a.
Definition py_int (x : Q) : Z := if Qlt_le_dec x 0 then Qceiling x else Qfloor x.
Definition floordiv (x y : Q) : Q := inject_Z (Qfloor (x / y)).
Definition py_mod (x y : Q) : Q := (x - y * floordiv x y)%Q.

(** [def _estimate_processing_time(file_size)] *)
Definition _estimate_processing_time (file_size : Z) : estimate :=
  let base_time := py_max 1 (inject_Z file_size / inject_Z (10 * 1024 * 1024)) in
  Estimate (py_int base_time)
           (if Qlt_le_dec 60 base_time
            then MinutesSeconds (py_int (floordiv base_time 60)) (py_int (py_mod base_time 60))
            else Seconds (py_int base_time))
           "medium"
           ["File size and format"; "Current system load"; "Data complexity"].

(** [def _get_upload_recommendations(file_size, file_extension)];
    [memory_pressure] is the value of [file_size > memory.available * 0.3]. *)
Definition _get_upload_recommendations (file_size : Z) (file_extension : string)
    (memory_pressure : bool) : list string :=
  (if decide (100 * 1024 * 1024 < file_size)
   then ["Consider using chunked upload for better reliability";
         "Ensure stable internet connection for large files"]
   else []) ++
  (if decide (file_extension ∈ [".xlsx"; ".xls"])
   then ["Excel files may take longer to process than CSV files";
         "Consider converting to CSV for faster processing"]
   else []) ++
  (if decide (50 * 1024 * 1024 < file_size)
   then ["Processing will be done in chunks to maintain system responsiveness";
         "You can monitor progress in real-time"]
   else []) ++
  (if memory_pressure
   then ["Large file detected - using memory-efficient processing";
         "Consider closing other applications to free up memory"]
   else []).

Record validation : Type := Validation {
  file_info_of : file_info;
  estimated_processing_time : estimate;
  recommendations : list string
}.

(** The answer of the status endpoint: the id, the fields of the record,
    and the readings of [psutil]. *)
Record status_answer (S : Type) : Type := StatusAnswer {
  processing_id : string;
  record_of : record;
  system_stats : S
}.
Arguments StatusAnswer {S} _ _ _.
Arguments processing_id {S} _.
Arguments record_of {S} _.
Arguments system_stats {S} _.

(** [async def get_processing_status(processing_id)] *)
Definition get_processing_status {S : Type} (processing_status : gmap string record)
    (id : string) (stats : S) : outcome (status_answer S) :=
  match processing_status !! id with
  | None => HTTPException 404
  | Some status => Returns (StatusAnswer id status stats)
  end.

Section validation.
(** [Path(name).suffix.lower()] *)
Variable suffix_lower : string → string.

(** [async def validate_file(self, file)] *)
Definition validate_file (file : UploadFile) : outcome file_info :=
  match size file with
  | None => TypeError
  | Some file_size =>
      if decide (MAX_FILE_SIZE < file_size) then HTTPException 413
      else
        let file_extension := suffix_lower (filename file) in
        if decide (file_extension ∉ allowed_extensions) then HTTPException 400
        else Returns (FileInfo (filename file) file_size file_extension (content_type file))
  end.

(** [async def validate_file_upload(file)]: an [HTTPException] is raised
    again, any other exception becomes a 500. *)
Definition validate_file_upload (file : UploadFile) (memory_pressure : bool)
  : outcome validation :=
  match validate_file file with
  | Returns validation_result =>
      Returns (Validation validation_result
                 (_estimate_processing_time (info_size validation_result))
                 (_get_upload_recommendations (info_size validation_result)
                    (extension validation_result) memory_pressure))
  | HTTPException status_code => HTTPException status_code
  | TypeError => HTTPException 500
  end.

Lemma parser_for_allowed file_extension :
  is_Some (parser_for file_extension) ↔ file_extension ∈ allowed_extensions.
Proof.
  unfold parser_for, allowed_extensions.
  destruct (decide (file_extension ∈ [".csv"; ".tsv"; ".txt"])) as [Hcsv|Hcsv].
  { split; [intros _|by eauto]. rewrite !elem_of_cons in *. tauto. }
  destruct (decide (file_extension ∈ [".xlsx"; ".xls"])) as [Hxls|Hxls].
  { split; [intros _|by eauto]. rewrite !elem_of_cons in *. tauto. }
  destruct (decide (file_extension = ".json")) as [Hjson|Hjson].
  { split; [intros _|by eauto]. rewrite !elem_of_cons. tauto. }
  split; [by intros [? ?]|]. rewrite !elem_of_cons, ?elem_of_nil in *. tauto.
Qed.

(** X11.  [validate_file] accepts a file exactly when its size is known
    and at most 200MB and [process_large_file] has a parser for its
    extension: no accepted file falls through the parser chain, and no
    extension with a parser is refused.  The size is tested first: a file
    over 200MB is answered 413 whatever its extension, and 400 is the answer
    for the files within the limit that have no parser. *)
Theorem validated_files_have_a_parser (file : UploadFile) :
  let file_extension := suffix_lower (filename file) in
  ((∃ info, validate_file file = Returns info) ↔
     (∃ n, size file = Some n ∧ n ≤ MAX_FILE_SIZE) ∧ is_Some (parser_for file_extension)) ∧
  (validate_file file = HTTPException 413 ↔
     ∃ n, size file = Some n ∧ MAX_FILE_SIZE < n) ∧
  (validate_file file = HTTPException 400 ↔
     (∃ n, size file = Some n ∧ n ≤ MAX_FILE_SIZE) ∧ parser_for file_extension = None) ∧
  (∀ info p, validate_file file = Returns info →
     parser_of p = parser_for (extension info) → p ≠ Pipeline.NoParser).
Proof.
  intros file_extension. unfold validate_file. fold file_extension.
  pose proof (parser_for_allowed file_extension) as Hallowed.
  destruct (size file) as [n|].
  - destruct (decide (MAX_FILE_SIZE < n)) as [Hbig|Hsmall].
    + split_and!.
      * split; [by intros [? ?]|]. intros [(m & [= <-] & Hm) _]. lia.
      * split; [eauto|done].
      * split; [done|]. intros [(m & [= <-] & Hm) _]. lia.
      * done.
    + destruct (decide (file_extension ∉ allowed_extensions)) as [Hout|Hin].
      * split_and!.
        -- split; [by intros [? ?]|]. intros [_ Hsome]. by apply Hallowed in Hsome.
        -- split; [done|]. intros (m & [= <-] & Hm). lia.
        -- split; [|done]. intros _. split; [exists n; split; [done|lia]|].
           destruct (parser_for file_extension) eqn:Hp; [|done].
           exfalso. apply Hout, Hallowed. eauto.
        -- done.
      * apply dec_stable in Hin. apply Hallowed in Hin. split_and!.
        -- split; [|eauto]. intros _. split; [exists n; split; [done|lia]|done].
        -- split; [done|]. intros (m & [= <-] & Hm). lia.
        -- split; [done|]. intros [_ Hnone]. rewrite Hnone in Hin. by destruct Hin.
        -- intros info p [= <-] Hp ->. cbn [extension parser_of] in Hp.
           rewrite <- Hp in Hin. by destruct Hin.
  - split_and!.
    + split; [by intros [? ?]|]. by intros [(m & ? & _) _].
    + split; [done|]. by intros (m & ? & _).
    + split; [done|]. by intros [(m & ? & _) _].
    + done.
Qed.

Lemma py_int_floor (x : Q) : (0 <= x)%Q → py_int x = Qfloor x.
Proof.
  intros Hx. unfold py_int. destruct (Qlt_le_dec x 0); [lra|done].
Qed.

(** The estimate in integer arithmetic. *)
Lemma estimate_seconds (file_size : Z) :
  estimated_seconds (_estimate_processing_time file_size) =
    Z.max 1 (file_size `div` (10 * 1024 * 1024)).
Proof.
  unfold _estimate_processing_time. cbn [estimated_seconds]. unfold py_max.
  pose proof (Zdiv_Qdiv file_size (10 * 1024 * 1024)) as Hdiv.
  set (q := (inject_Z file_size / inject_Z (10 * 1024 * 1024))%Q) in *.
  destruct (Qlt_le_dec 1 q) as [Hlarge|Hsmall].
  - rewrite py_int_floor by lra. rewrite <- Hdiv.
    assert (Qfloor 1 ≤ Qfloor q) as Hfloor by (apply Qfloor_resp_le; lra).
    change (Qfloor 1) with 1 in Hfloor. lia.
  - change (py_int 1) with 1.
    assert (Qfloor q ≤ Qfloor 1) as Hfloor by (by apply Qfloor_resp_le).
    change (Qfloor 1) with 1 in Hfloor. lia.
Qed.

(** X12.  For every file that [validate_file_upload] accepts, the
    estimate is the size divided by 10MB, rounded down, and at least one
    second; it lies between 1 and 20 seconds, and its readable form counts
    seconds only: the branch that writes minutes is never taken here. *)
Theorem estimate_of_a_valid_file (file : UploadFile) (memory_pressure : bool) answer :
  validate_file_upload file memory_pressure = Returns answer →
  ∃ n, size file = Some n ∧
    let seconds := Z.max 1 (n `div` (10 * 1024 * 1024)) in
    estimated_seconds (estimated_processing_time answer) = seconds ∧
    1 ≤ seconds ≤ 20 ∧
    estimated_human (estimated_processing_time answer) = Seconds seconds.
Proof.
  unfold validate_file_upload, validate_file.
  destruct (size file) as [n|]; [|done]. case_decide as Hsize; [done|].
  case_decide; [done|]. intros [= <-]. exists n. split; [done|].
  cbn [estimated_processing_time info_size].
  pose proof (estimate_seconds n) as Hseconds.
  assert (n `div` (10 * 1024 * 1024) ≤ 20) as Hdiv.
  { unfold MAX_FILE_SIZE in Hsize.
    apply Z.lt_succ_r, Z.div_lt_upper_bound; lia. }
  split_and!; [done|lia|lia|].
  unfold _estimate_processing_time in *. cbn [estimated_seconds estimated_human] in *.
  set (base_time := py_max 1 _) in *.
  destruct (Qlt_le_dec 60 base_time) as [Hlong|Hshort]; [|by rewrite Hseconds].
  exfalso. assert (Qfloor 60 ≤ py_int base_time) as Hfloor.
  { rewrite py_int_floor by lra. apply Qfloor_resp_le. lra. }
  change (Qfloor 60) with 60 in Hfloor. lia.
Qed.

End validation.

(** X13.  The status endpoint, the stream endpoint and the cancel endpoint
    answer 404 for the same ids, those without a record in the store; and
    after a cancel of an id that has a record, whatever its status, the
    status endpoint answers the cancelled record with progress 0 and without
    start time, and the records of the other ids as before. *)
Theorem status_endpoints_agree {S : Type} (processing_status : gmap string record)
    (id : string) (stats : S) start_time polls :
  (get_processing_status processing_status id stats = HTTPException 404 ↔
     processing_status !! id = None) ∧
  (ProgressStream.stream_processing_progress processing_status id start_time polls =
     ProgressStream.Http404 "Processing ID not found" ↔
     processing_status !! id = None) ∧
  ((Pipeline.cancel_processing processing_status id).2 =
     Pipeline.Http404 "Processing ID not found" ↔
     processing_status !! id = None) ∧
  (is_Some (processing_status !! id) →
     get_processing_status (Pipeline.cancel_processing processing_status id).1 id stats =
       Returns (StatusAnswer id (Rec cancelled 0 None) stats) ∧
     ∀ other, other ≠ id →
       get_processing_status (Pipeline.cancel_processing processing_status id).1 other stats =
       get_processing_status processing_status other stats).
Proof.
  unfold get_processing_status, ProgressStream.stream_processing_progress,
    Pipeline.cancel_processing.
  destruct (processing_status !! id) as [r|] eqn:Hr.
  - split; [by split|].
    split; [split; [by destruct (ProgressStream.generate_updates _ _ _)|done]|].
    split; [by split|].
    intros _. cbn [fst]. split; [by rewrite lookup_insert_eq|].
    intros other Hother. by rewrite lookup_insert_ne.
  - do 3 (split; [done|]). by intros [? ?].
Qed.

Lemma estimate_of_a_valid_file_witness :
  let file := File "sales.csv" (Some (150 * 1024 * 1024)) (Some "text/csv") in
  let suffix_lower := λ _ : string, ".csv" in
  ∃ answer,
    validate_file_upload suffix_lower file false = Returns answer ∧
    estimated_seconds (estimated_processing_time answer) = 15 ∧
    estimated_human (estimated_processing_time answer) = Seconds 15 ∧
    recommendations answer =
      ["Consider using chunked upload for better reliability";
       "Ensure stable internet connection for large files";
       "Processing will be done in chunks to maintain system responsiveness";
       "You can monitor progress in real-time"].
Proof.
  intros file suffix_lower.
  destruct (validate_file_upload suffix_lower file false) as [answer| |] eqn:Hanswer;
    [|vm_compute in Hanswer; discriminate..].
  exists answer. split; [done|].
  destruct (estimate_of_a_valid_file suffix_lower file false answer Hanswer)
    as (n & Hn & Hseconds & _ & Hhuman).
  injection Hn as <-. split; [exact Hseconds|]. split; [exact Hhuman|].
  vm_compute in Hanswer. by injection Hanswer as <-.
Defined.

Lemma status_endpoints_agree_witness :
  let store : gmap string record := {["p1" := Rec complete 100 (Some 0%Q)]} in
  is_Some (store !! "p1") ∧
  get_processing_status (Pipeline.cancel_processing store "p1").1 "p1" () =
    Returns (StatusAnswer "p1" (Rec cancelled 0 None) ()) ∧
  get_processing_status store "p2" () = HTTPException 404.
Proof.
  intros store. assert (is_Some (store !! "p1")) as Hknown by (by eexists).
  destruct (status_endpoints_agree store "p1" () 0%Q []) as (_ & _ & _ & Hcancel).
  destruct (status_endpoints_agree store "p2" () 0%Q []) as (Hstatus & _).
  split; [exact Hknown|]. split; [by apply Hcancel|]. by apply Hstatus.
Defined.

End Intake.

(** ** The JSON files and their cache (server.py, [_cache],
    [load_json_file], [save_json_file], [load_hyperlocal_data],
    [save_hyperlocal_data] and the endpoints built on them) *)

Module JsonStore.

Definition ALERTS_FILE : string := "alerts.json".
Definition HYPERLOCAL_DATA_FILE : string := "public/data/hyperlocal-data.json".

(** How a write of a file went: the file was written; it could not be
    opened (or its directory not made); it was opened, which empties it, and
    the dump into it failed. *)
Inductive write_outcome : Type := Written | NotOpened | Torn.

(** What an endpoint answers. *)
Inductive response (A : Type) : Type :=
| Ok (a : A)
| HTTPException (status_code : Z) (detail : string).
Arguments Ok {A} _.
Arguments HTTPException {A} _ _.

Section store.
(** The JSON values; a JSON object is a dict from strings to values, and
    the files of the server hold lists of objects. *)
Context {V : Type} `{EqDecision V}.
(** [datetime.now().isoformat()] as a JSON string, for a reading of the
    clock; a Python [str] as a JSON string. *)
Variable isoformat : Q → V.
Variable JStr : string → V.

Local Abbreviation item := (gmap string V).

(** What a file holds: a list that [json.load] returns, or text that makes
    it raise. *)
Inductive file : Type :=
| Holds (data : list item)
| Unreadable.

(** The module-level dicts [_cache] and [_cache_timeout], and the files by
    path (no entry: [os.path.exists] is false). *)
Record t : Type := State {
  _cache : gmap string (list item);
  _cache_timeout : gmap string Q;
  files : gmap string file
}.

Definition with_files (st : t) (fs : gmap string file) : t :=
  State (_cache st) (_cache_timeout st) fs.

(** [cache_key in _cache and cache_key in _cache_timeout and
    current_time - _cache_timeout[cache_key] < timeout] *)
Definition fresh (st : t) (cache_key : string) (current_time timeout : Q)
  : option (list item) :=
  match _cache st !! cache_key, _cache_timeout st !! cache_key with
  | Some data, Some stamp =>
      if Qlt_le_dec (current_time - stamp) timeout then Some data else None
  | _, _ => None
  end.

(** The [try] block of the two loaders: a file that is there and readable
    is stored in the cache and returned; otherwise the answer is [[]] and the
    cache stays as it is. *)
Definition read_through (st : t) (cache_key file_path : string) (current_time : Q)
  : list item * t :=
  match files st !! file_path with
  | Some (Holds data) =>
      (data, State (<[cache_key := data]> (_cache st))
                   (<[cache_key := current_time]> (_cache_timeout st))
                   (files st))
  | Some Unreadable | None => ([], st)
  end.

(** [async def load_json_file(file_path)]: cached for 60 seconds. *)
Definition load_json_file (st : t) (file_path : string) (current_time : Q)
  : list item * t :=
  let cache_key := "json_" +:+ file_path in
  match fresh st cache_key current_time 60 with
  | Some data => (data, st)
  | None => read_through st cache_key file_path current_time
  end.

(** [async def load_hyperlocal_data()]: cached for 30 seconds. *)
Definition load_hyperlocal_data (st : t) (current_time : Q) : list item * t :=
  let cache_key := "hyperlocal_data" in
  match fresh st cache_key current_time 30 with
  | Some data => (data, st)
  | None => read_through st cache_key HYPERLOCAL_DATA_FILE current_time
  end.

(** [def _save_json_sync(file_path, data)] *)
Definition _save_json_sync (fs : gmap string file) (file_path : string)
    (data : list item) (how : write_outcome) : gmap string file :=
  match how with
  | Written => <[file_path := Holds data]> fs
  | NotOpened => fs
  | Torn => <[file_path := Unreadable]> fs
  end.

Definition succeeded (how : write_outcome) : bool :=
  match how with Written => true | NotOpened | Torn => false end.

(** The body shared by the two savers: the cache entry is dropped first,
    then the file is written; the result tells whether nothing raised. *)
Definition save_under (st : t) (cache_key file_path : string) (data : list item)
    (how : write_outcome) : bool * t :=
  (succeeded how,
   State (delete cache_key (_cache st)) (delete cache_key (_cache_timeout st))
         (_save_json_sync (files st) file_path data how)).


(** [async def save_hyperlocal_data(data)] *)
Definition save_hyperlocal_data (st : t) (data : list item) (how : write_outcome)
  : bool * t :=
  save_under st "hyperlocal_data" HYPERLOCAL_DATA_FILE data how.






(** A [HyperlocalLocation]: its two required fields, and the fields of its
    [dict()] besides them. *)
Record HyperlocalLocation : Type := Location {
  pincode : string;
  neighborhood : string;
  other_fields : item
}.

Definition dict (location : HyperlocalLocation) : item :=
  <["pincode" := JStr (pincode location)]>
    (<["neighborhood" := JStr (neighborhood location)]> (other_fields location)).

(** [loc.get('pincode') == pincode] *)
Definition has_pincode (p : string) (loc : item) : Prop :=
  loc !! "pincode" = Some (JStr p).

Global Instance has_pincode_dec p loc : Decision (has_pincode p loc).
Proof. unfold has_pincode. apply _. Defined.

(** [async def add_hyperlocal_data(location)] *)
Definition add_hyperlocal_data (st : t) (location : HyperlocalLocation)
    (load_time timestamp : Q) (how : write_outcome) : response item * t :=
  if decide (pincode location = "" ∨ neighborhood location = "") then
    (HTTPException 400 "PIN code and neighborhood are required", st)
  else
    let '(data, st1) := load_hyperlocal_data st load_time in
    if decide (Exists (has_pincode (pincode location)) data) then
      (HTTPException 409 "Location already exists", st1)
    else
      let location_data := <["timestamp" := isoformat timestamp]> (dict location) in
      let '(saved, st2) := save_hyperlocal_data st1 (data ++ [location_data]) how in
      (if saved then Ok location_data else HTTPException 500 "Failed to save data", st2).

(** [async def update_hyperlocal_data(pincode, updates)]: the first
    location with the pincode is replaced by
    [{**loc, **updates, 'timestamp': ...}]. *)
Definition update_hyperlocal_data (st : t) (p : string) (updates : item)
    (load_time timestamp : Q) (how : write_outcome) : response item * t :=
  let '(data, st1) := load_hyperlocal_data st load_time in
  match list_find (has_pincode p) data with
  | Some (i, loc) =>
      let updated := <["timestamp" := isoformat timestamp]> (updates ∪ loc) in
      let '(saved, st2) := save_hyperlocal_data st1 (<[i := updated]> data) how in
      (if saved then Ok updated else HTTPException 500 "Failed to save data", st2)
  | None => (HTTPException 404 "Location not found", st1)
  end.

(** The pincodes of the locations that have one. *)
Definition pincodes (data : list item) : list V := omap (λ loc, loc !! "pincode") data.

(** *** The cache *)






(** X16.  A list that [load_json_file] has read from its file at time [t]
    is what the function returns until 60 seconds after [t], whatever
    happens to the file meanwhile (a change made by another program is not
    seen, nor is the loss of the file); from 60 seconds after [t] on it
    reads the file again. *)
Theorem load_json_file_serves_from_cache st file_path data t :
  fresh st ("json_" +:+ file_path) t 60 = None →
  files st !! file_path = Some (Holds data) →
  (load_json_file st file_path t).1 = data ∧
  ∀ fs t',
    let later := with_files (load_json_file st file_path t).2 fs in
    ((t' - t < 60)%Q → load_json_file later file_path t' = (data, later)) ∧
    ((60 <= t' - t)%Q →
       (load_json_file later file_path t').1 =
         match fs !! file_path with
         | Some (Holds data') => data'
         | _ => []
         end).
Proof.
  intros Hstale Hfile. unfold load_json_file at 1 2. rewrite Hstale.
  unfold read_through. rewrite Hfile. cbn [fst snd]. split; [done|].
  intros fs t'. unfold load_json_file, fresh.
  cbn [with_files _cache _cache_timeout]. rewrite !lookup_insert_eq.
  split; intros Ht; destruct (Qlt_le_dec (t' - t) 60) as [Hlt|Hge]; try lra; [done|].
  unfold read_through. cbn [files with_files].
  by destruct (fs !! file_path) as [[data'|]|].
Qed.

(** *** The locations *)

Lemma pincodes_app data1 data2 : pincodes (data1 ++ data2) = pincodes data1 ++ pincodes data2.
Proof. unfold pincodes. apply omap_app. Qed.

Lemma elem_of_pincodes p data : JStr p ∈ pincodes data ↔ Exists (has_pincode p) data.
Proof.
  unfold pincodes, has_pincode. by rewrite list_elem_of_omap, Exists_exists.
Qed.

Lemma pincodes_insert data i (loc loc' : item) :
  loc' !! "pincode" = loc !! "pincode" → data !! i = Some loc →
  pincodes (<[i := loc']> data) = pincodes data.
Proof.
  intros Hsame. revert i. induction data as [|d data IH]; intros [|i] Hi; try done.
  - injection Hi as ->. unfold pincodes. simpl. by rewrite Hsame.
  - unfold pincodes in *. simpl. destruct (d !! "pincode"); [f_equal|]; apply (IH i Hi).
Qed.

(** X17.  [add_hyperlocal_data] refuses a location without pincode or
    neighborhood (400) before it reads anything, and a location whose
    pincode a stored location has (409) without writing anything; any other
    location is appended, stamped, to the stored ones, and when the pincodes
    of the stored locations were distinct they still are. *)
Theorem add_keeps_pincodes_distinct st location load_time timestamp how :
  let before := (load_hyperlocal_data st load_time).1 in
  let after := add_hyperlocal_data st location load_time timestamp how in
  let location_data := <["timestamp" := isoformat timestamp]> (dict location) in
  (pincode location = "" ∨ neighborhood location = "" →
     after = (HTTPException 400 "PIN code and neighborhood are required", st)) ∧
  (pincode location ≠ "" → neighborhood location ≠ "" →
     JStr (pincode location) ∈ pincodes before →
     after.1 = HTTPException 409 "Location already exists" ∧
     files after.2 = files st) ∧
  (pincode location ≠ "" → neighborhood location ≠ "" →
     JStr (pincode location) ∉ pincodes before → how = Written →
     after.1 = Ok location_data ∧
     files after.2 !! HYPERLOCAL_DATA_FILE = Some (Holds (before ++ [location_data])) ∧
     pincodes (before ++ [location_data]) = pincodes before ++ [JStr (pincode location)] ∧
     (NoDup (pincodes before) → NoDup (pincodes (before ++ [location_data])))).
Proof.
  cbn zeta. unfold add_hyperlocal_data.
  assert (files (load_hyperlocal_data st load_time).2 = files st) as Hfiles.
  { unfold load_hyperlocal_data, read_through.
    destruct (fresh _ _ _ _); [done|]. by destruct (files st !! _) as [[?|]|]. }
  destruct (load_hyperlocal_data st load_time) as [data st1]. cbn [fst snd] in *.
  split_and!.
  - intros Hempty. by rewrite decide_True.
  - intros Hp Hn Hin. rewrite decide_False by tauto.
    rewrite decide_True by (by apply elem_of_pincodes). done.
  - intros Hp Hn Hout ->. rewrite decide_False by tauto.
    rewrite decide_False by (by rewrite <- elem_of_pincodes).
    cbn [save_hyperlocal_data save_under succeeded fst snd files _save_json_sync].
    assert (pincodes (data ++ [<["timestamp" := isoformat timestamp]> (dict location)]) =
            pincodes data ++ [JStr (pincode location)]) as Hpins.
    { rewrite pincodes_app. f_equal. unfold pincodes, dict. cbn [omap list_omap].
      rewrite lookup_insert_ne by done. by rewrite lookup_insert_eq. }
    split_and!; [done|apply lookup_insert_eq|done|].
    rewrite Hpins. intros Hdistinct. apply NoDup_app. split_and!; [done| |apply NoDup_singleton].
    intros v Hv ->%list_elem_of_singleton. done.
Qed.

(** X18.  [update_hyperlocal_data] answers 404 and writes nothing when no
    stored location has the pincode; otherwise it rewrites the first
    location that has it, where it stands, with the fields of the update
    laid over its own and a new timestamp, and leaves every other location,
    and the number of locations, as they were.  When the update carries no
    pincode, the pincodes of the stored locations stay as they were. *)
Theorem update_rewrites_first_match st p updates load_time timestamp :
  let before := (load_hyperlocal_data st load_time).1 in
  let after := update_hyperlocal_data st p updates load_time timestamp Written in
  (JStr p ∉ pincodes before →
     after.1 = HTTPException 404 "Location not found" ∧ files after.2 = files st) ∧
  (JStr p ∈ pincodes before →
     ∃ i loc,
       before !! i = Some loc ∧ has_pincode p loc ∧
       (∀ j loc', before !! j = Some loc' → (j < i)%nat → ¬ has_pincode p loc') ∧
       let updated := <["timestamp" := isoformat timestamp]> (updates ∪ loc) in
       after.1 = Ok updated ∧
       files after.2 !! HYPERLOCAL_DATA_FILE = Some (Holds (<[i := updated]> before)) ∧
       length (<[i := updated]> before) = length before ∧
       (∀ j, j ≠ i → <[i := updated]> before !! j = before !! j) ∧
       (updates !! "pincode" = None →
          pincodes (<[i := updated]> before) = pincodes before)).
Proof.
  cbn zeta. unfold update_hyperlocal_data.
  assert (files (load_hyperlocal_data st load_time).2 = files st) as Hfiles.
  { unfold load_hyperlocal_data, read_through.
    destruct (fresh _ _ _ _); [done|]. by destruct (files st !! _) as [[?|]|]. }
  destruct (load_hyperlocal_data st load_time) as [data st1]. cbn [fst snd] in *.
  split.
  - intros Hout. rewrite elem_of_pincodes in Hout.
    destruct (list_find (has_pincode p) data) as [[i loc]|] eqn:Hfind; [|done].
    apply list_find_Some in Hfind as (Hi & Hloc & _).
    exfalso. apply Hout, Exists_exists. exists loc. split; [|done].
    by eapply list_elem_of_lookup_2.
  - intros Hin. rewrite elem_of_pincodes in Hin.
    destruct (list_find (has_pincode p) data) as [[i loc]|] eqn:Hfind.
    + apply list_find_Some in Hfind as (Hi & Hloc & Hfirst).
      exists i, loc. do 3 (split; [done|]).
      cbn [save_hyperlocal_data save_under succeeded fst snd files _save_json_sync].
      split_and!; [done|apply lookup_insert_eq|apply length_insert| |].
      * intros j Hj. by apply list_lookup_insert_ne.
      * intros Hnone. apply (pincodes_insert data i loc); [|done].
        rewrite lookup_insert_ne by done. by apply lookup_union_r.
    + exfalso. apply list_find_None in Hfind.
      apply Exists_exists in Hin as (loc & Hloc & Hp).
      by eapply (proj1 (Forall_forall _ _) Hfind).
Qed.

End store.

(** *** Concrete runs, with strings for the JSON values *)

(** A store whose hyperlocal file holds one location. *)
Definition one_location : t (V:=string) :=
  State ∅ ∅ {[HYPERLOCAL_DATA_FILE := Holds [{["pincode" := "560001"; "sales" := "3"]}]]}.

Lemma load_json_file_serves_from_cache_witness :
  let st : t (V:=string) := State ∅ ∅ {[ALERTS_FILE := Holds [{["name" := "a"]}]]} in
  fresh st ("json_" +:+ ALERTS_FILE) 0 60 = None ∧
  files st !! ALERTS_FILE = Some (Holds [{["name" := "a"]}]) ∧
  (load_json_file (with_files (load_json_file st ALERTS_FILE 0).2 ∅) ALERTS_FILE 59).1 =
    [{["name" := "a"]}] ∧
  (load_json_file (with_files (load_json_file st ALERTS_FILE 0).2 ∅) ALERTS_FILE 60).1 = [].
Proof.
  intros st.
  assert (fresh st ("json_" +:+ ALERTS_FILE) 0 60 = None) as Hstale by done.
  assert (files st !! ALERTS_FILE = Some (Holds [{["name" := "a"]}])) as Hfile by done.
  destruct (load_json_file_serves_from_cache st ALERTS_FILE _ 0 Hstale Hfile)
    as [_ Hlater].
  split; [exact Hstale|]. split; [exact Hfile|]. split.
  - destruct (Hlater ∅ 59%Q) as [Hhit _]. rewrite Hhit; [done|reflexivity].
  - destruct (Hlater ∅ 60%Q) as [_ Hmiss]. rewrite Hmiss; [done|discriminate].
Defined.


Lemma add_keeps_pincodes_distinct_witness :
  let location := Location "560002" "Indiranagar" ∅ in
  let added := <["timestamp" := "now"]> (dict id location) in
  (add_hyperlocal_data (λ _, "now") id one_location location 0 0 Written).1 = Ok added ∧
  NoDup (pincodes (V:=string)
           ((load_hyperlocal_data one_location 0).1 ++ [added])) ∧
  (add_hyperlocal_data (λ _, "now") id one_location (Location "560001" "MG Road" ∅)
     0 0 Written).1 = HTTPException 409 "Location already exists".
Proof.
  intros location added.
  destruct (add_keeps_pincodes_distinct (λ _, "now") id one_location location 0 0 Written)
    as (_ & _ & Hadd).
  destruct Hadd as (Hok & _ & _ & Hdistinct); [done|done| |done|].
  { apply (bool_decide_unpack _). vm_compute. exact I. }
  destruct (add_keeps_pincodes_distinct (λ _, "now") id one_location
              (Location "560001" "MG Road" ∅) 0 0 Written) as (_ & Htaken & _).
  destruct Htaken as [Hrefused _]; [done|done|vm_compute; apply list_elem_of_here|].
  split; [exact Hok|]. split; [|exact Hrefused].
  apply Hdistinct. vm_compute. apply NoDup_singleton.
Defined.

Lemma update_rewrites_first_match_witness :
  (∃ updated,
     (update_hyperlocal_data (λ _, "now") id one_location "560001" {["sales" := "5"]}
        0 0 Written).1 = Ok updated ∧
     updated !! "sales" = Some "5" ∧ updated !! "pincode" = Some "560001") ∧
  (update_hyperlocal_data (λ _, "now") id one_location "560009" {["sales" := "5"]}
     0 0 Written).1 = HTTPException 404 "Location not found".
Proof.
  destruct (update_rewrites_first_match (λ _, "now") id one_location "560001"
              {["sales" := "5"]} 0 0) as [_ Hfound].
  destruct Hfound as (i & loc & _ & Hloc & _ & Hok & _);
    [vm_compute; apply list_elem_of_here|].
  destruct (update_rewrites_first_match (λ _, "now") id one_location "560009"
              {["sales" := "5"]} 0 0) as [Hmissing _].
  destruct Hmissing as [Hrefused _].
  { apply (bool_decide_unpack _). vm_compute. exact I. }
  split; [|exact Hrefused].
  eexists. split; [exact Hok|]. rewrite !lookup_insert_ne by done. split.
  - by apply lookup_union_Some_l.
  - by rewrite lookup_union_r.
Defined.

End JsonStore.

(** ** The hyperlocal reader (server.py, [get_hyperlocal_data_internal]) *)

Module Hyperlocal.

(** The readings of the clock in one call: by [cache.get], by
    [load_hyperlocal_data], by [cache.set] and by the cleanup pass of the
    cache when it runs. *)
Record clocks : Type := Clocks {
  at_get : Z;
  at_load : Q;
  at_set : Z;
  at_cleanup : Z
}.

Section internal.
Context {V : Type} `{EqDecision V} {WebSocket : Type} `{EqDecision WebSocket}.

Local Abbreviation item := (gmap string V).

(** What the call works on: the result cache [cache], the JSON files with
    their own cache, and the WebSocket registry [manager]. *)
Record world : Type := World {
  result_cache : AdvancedCache.t (list item);
  json : JsonStore.t (V:=V);
  active_connections : list WebSocket
}.

(** The loop that copies the locations and varies their numbers with the
    clock and [random]; [None] when it raises. *)
Variable vary : list item → option (list item).

(** [async def get_hyperlocal_data_internal()]; [None] when [cache.set]
    does not return. *)
Definition get_hyperlocal_data_internal (fuel : nat) (w : world) (k : clocks)
    (delivers : WebSocket → bool)
  : option (JsonStore.response (list item) * world) :=
  match AdvancedCache.get (result_cache w) "hyperlocal_data" (at_get k) with
  | (Some cached_data, c1) =>
      Some (JsonStore.Ok cached_data, World c1 (json w) (active_connections w))
  | (None, c1) =>
      let '(data, json1) := JsonStore.load_hyperlocal_data (json w) (at_load k) in
      match vary data with
      | Some updated_data =>
          c2 ← AdvancedCache.set fuel c1 "hyperlocal_data" updated_data
                 (at_set k) (at_cleanup k);
          Some (JsonStore.Ok updated_data,
                World c2 json1
                  (ConnectionManager.broadcast delivers (active_connections w)))
      | None =>
          Some (JsonStore.HTTPException 500 "Failed to fetch hyperlocal data",
                World c1 json1 (active_connections w))
      end
  end.

Lemma get_size (c : AdvancedCache.t (list item)) key now :
  (size (AdvancedCache.cache (AdvancedCache.get c key now).2) ≤
   size (AdvancedCache.cache c))%nat.
Proof.
  unfold AdvancedCache.get.
  destruct (AdvancedCache.cache c !! key) as [[data ts]|] eqn:Hkey; [|done].
  case_decide; [done|]. cbn [snd AdvancedCache.with_cache AdvancedCache.cache].
  apply map_subseteq_size, delete_subseteq.
Qed.

Lemma insert_size (m : gmap string (list item * Z)) key x :
  (size (<[key := x]> m) ≤ S (size m))%nat.
Proof. rewrite map_size_insert. destruct (m !! key); simpl; lia. Qed.

(** A call that finds a live entry in the result cache answers with it and
    changes nothing; it does not look at the JSON files. *)
Lemma hit_answers_from_cache fuel w k delivers data T :
  AdvancedCache.cache (result_cache w) !! "hyperlocal_data" = Some (data, T) →
  at_get k < T + AdvancedCache.ttl (result_cache w) →
  get_hyperlocal_data_internal fuel w k delivers = Some (JsonStore.Ok data, w).
Proof.
  intros Hentry Hlive. unfold get_hyperlocal_data_internal, AdvancedCache.get.
  rewrite Hentry, decide_True by lia. by destruct w.
Qed.

(** X19.  An answer that [get_hyperlocal_data_internal] has computed from
    the file and stored in the result cache (which had room for it) is the
    answer of every call made before the entry is [ttl] old, whatever has
    been written to the JSON file and its cache meanwhile: a location that
    [add_hyperlocal_data] or [update_hyperlocal_data] has saved is not in
    the answers until then, as neither of them touches the result cache. *)
Theorem hyperlocal_answer_outlives_writes fuel w k delivers answer w1 :
  (AdvancedCache.get (result_cache w) "hyperlocal_data" (at_get k)).1 = None →
  Z.of_nat (size (AdvancedCache.cache (result_cache w))) <
    AdvancedCache.max_size (result_cache w) →
  get_hyperlocal_data_internal fuel w k delivers = Some (JsonStore.Ok answer, w1) →
  AdvancedCache.cache (result_cache w1) !! "hyperlocal_data" = Some (answer, at_set k) ∧
  ∀ fuel' json' connections' k' delivers',
    at_get k' < at_set k + AdvancedCache.ttl (result_cache w) →
    let later := World (result_cache w1) json' connections' in
    get_hyperlocal_data_internal fuel' later k' delivers' = Some (JsonStore.Ok answer, later).
Proof.
  intros Hmiss Hroom. unfold get_hyperlocal_data_internal.
  pose proof (get_size (result_cache w) "hyperlocal_data" (at_get k)) as Hsize.
  destruct (AdvancedCache.get_params (result_cache w) "hyperlocal_data" (at_get k))
    as [Hmax Httl].
  destruct (AdvancedCache.get (result_cache w) "hyperlocal_data" (at_get k))
    as [cached c1]. cbn [fst snd] in *. subst cached.
  destruct (JsonStore.load_hyperlocal_data (json w) (at_load k)) as [data json1].
  destruct (vary data) as [updated_data|]; [|done].
  unfold AdvancedCache.set.
  rewrite decide_False.
  2:{ cbn [AdvancedCache.store AdvancedCache.max_size AdvancedCache.cache].
      pose proof (insert_size (AdvancedCache.cache c1) "hyperlocal_data"
                    (updated_data, at_set k)). lia. }
  cbn [mbind option_bind]. intros [= <- <-]. cbn [result_cache].
  assert (AdvancedCache.cache (AdvancedCache.store c1 "hyperlocal_data" updated_data (at_set k))
            !! "hyperlocal_data" = Some (updated_data, at_set k)) as Hentry
    by apply lookup_insert_eq.
  split; [exact Hentry|].
  intros fuel' json' connections' k' delivers' Hlive.
  apply (hit_answers_from_cache fuel' (World _ json' connections') k' delivers'
           updated_data (at_set k)); [exact Hentry|].
  cbn [result_cache AdvancedCache.store AdvancedCache.ttl]. lia.
Qed.

End internal.

(** A reader that leaves the locations as they are, and a registry without
    connections, with strings for the JSON values. *)
Lemma hyperlocal_answer_outlives_writes_witness :
  let stored : list (gmap string string) := [{["pincode" := "560001"]}] in
  let w : world (V:=string) (WebSocket:=nat) :=
    World (AdvancedCache.__init__ 2000 600)
          (JsonStore.State ∅ ∅ {[JsonStore.HYPERLOCAL_DATA_FILE := JsonStore.Holds stored]})
          [] in
  let k := Clocks 0 0 0 0 in
  let w1 := World (AdvancedCache.store (AdvancedCache.__init__ 2000 600)
                     "hyperlocal_data" stored 0)
                  (JsonStore.load_hyperlocal_data (json w) 0).2 [] in
  let added :=
    (JsonStore.add_hyperlocal_data (λ _, "now") id (json w1)
       (JsonStore.Location "560002" "Indiranagar" ∅) 1 1 JsonStore.Written).2 in
  get_hyperlocal_data_internal Some 0 w k (λ _, true) = Some (JsonStore.Ok stored, w1) ∧
  JsonStore.files added !! JsonStore.HYPERLOCAL_DATA_FILE =
    Some (JsonStore.Holds (stored ++
            [{["pincode" := "560002"; "neighborhood" := "Indiranagar"; "timestamp" := "now"]}])) ∧
  get_hyperlocal_data_internal Some 0 (World (result_cache w1) added []) (Clocks 599 599 599 599)
    (λ _ : nat, true) =
    Some (JsonStore.Ok stored, World (result_cache w1) added []).
Proof.
  intros stored w k w1 added.
  assert (get_hyperlocal_data_internal Some 0 w k (λ _, true) =
          Some (JsonStore.Ok stored, w1)) as Hfirst by (vm_compute; reflexivity).
  split; [exact Hfirst|]. split; [vm_compute; reflexivity|].
  assert ((AdvancedCache.get (result_cache w) "hyperlocal_data" (at_get k)).1 = None)
    as Hmiss by done.
  assert (Z.of_nat (size (AdvancedCache.cache (result_cache w))) <
          AdvancedCache.max_size (result_cache w)) as Hroom by (vm_compute; reflexivity).
  destruct (hyperlocal_answer_outlives_writes Some 0 w k (λ _, true) stored w1
              Hmiss Hroom Hfirst) as [_ Hlater].
  apply (Hlater 0%nat added [] (Clocks 599 599 599 599) (λ _ : nat, true)).
  simpl. lia.
Defined.

End Hyperlocal.

(** ** The forecast endpoint (server.py, [forecast_data] and
    [_run_forecast_sync]) *)

Module Forecast.

(** How the run of [forecast.py] went: it ended within the 30 seconds, with
    its return code and what it wrote to its two streams; it did not; or
    starting it or talking to it raised. *)
Inductive process : Type :=
| Exited (returncode : Z) (stdout stderr : string)
| TimeoutExpired
| Raised (message : string).

(** The dict [_run_forecast_sync] returns. *)
Inductive result (F : Type) : Type :=
| Success (data : F)
| Failure (error : string).
Arguments Success {F} _.
Arguments Failure {F} _.

(** What the endpoint answers: the forecast, or an [HTTPException] with
    its status code. *)
Inductive response (F : Type) : Type :=
| Answer (forecast : F)
| HTTPException (status_code : Z).
Arguments Answer {F} _.
Arguments HTTPException {F} _.

Section forecast.
(** [json.loads] on the output of the script; [None] stands for
    [json.JSONDecodeError]. *)
Context {F D : Type}.
Variable json_loads : string → option F.

(** [def _run_forecast_sync(forecast_input)], given how the process went. *)
Definition _run_forecast_sync (run : process) : result F :=
  match run with
  | Exited returncode stdout stderr =>
      if decide (returncode ≠ 0 ∨ stderr ≠ "") then
        Failure (if decide (stderr = "") then "Python script error." else stderr)
      else
        match json_loads stdout with
        | Some forecast_result => Success forecast_result
        | None => Failure "Failed to parse forecast result."
        end
  | TimeoutExpired => Failure "Forecast computation timed out."
  | Raised message => Failure message
  end.

(** [async def forecast_data(request)]: the 500 raised for a failed run is
    caught by the [except Exception] around it and raised again as a 500. *)
Definition forecast_data (data : list D) (run : process) : response F :=
  if decide (data = [] ∨ (length data < 2)%nat) then HTTPException 400
  else
    match _run_forecast_sync run with
    | Success forecast => Answer forecast
    | Failure _ => HTTPException 500
    end.

(** X20.  The endpoint answers with a forecast exactly when the request
    has at least two data points, the script ended with return code 0 and
    wrote nothing to its error stream, and what it wrote to its output parses;
    the forecast is the parsed output.  With fewer than two data points the
    answer is 400 however the script would run; in every other case it is
    500: also for a script that ends with return code 0 and a forecast on its
    output, when it has written anything, such as a warning, to its error
    stream. *)
Theorem forecast_needs_a_silent_run (data : list D) (run : process) :
  (∀ forecast,
     forecast_data data run = Answer forecast ↔
     (2 ≤ length data)%nat ∧
     ∃ stdout, run = Exited 0 stdout "" ∧ json_loads stdout = Some forecast) ∧
  (forecast_data data run = HTTPException 400 ↔ (length data < 2)%nat) ∧
  (∀ stdout stderr, (2 ≤ length data)%nat → stderr ≠ "" →
     forecast_data data (Exited 0 stdout stderr) = HTTPException 500).
Proof.
  unfold forecast_data. split_and!.
  - intros forecast. case_decide as Hfew.
    + split; [done|]. intros [Hmany _]. destruct Hfew as [->|?]; simpl in *; lia.
    + assert (2 ≤ length data)%nat as Hmany by (destruct data; [tauto|lia]).
      unfold _run_forecast_sync.
      destruct run as [returncode stdout stderr| |message].
      * case_decide as Hloud.
        -- split; [done|]. intros [_ (out & [= -> -> ->] & _)]. tauto.
        -- assert (returncode = 0 ∧ stderr = "") as [-> ->]
             by (split; apply dec_stable; tauto).
           destruct (json_loads stdout) as [parsed|] eqn:Hparsed.
           ++ split.
              ** intros [= <-]. split; [done|]. by exists stdout.
              ** intros [_ (out & [= <-] & Hout)]. congruence.
           ++ split; [done|]. intros [_ (out & [= <-] & Hout)]. congruence.
      * split; [done|]. by intros [_ (out & ? & _)].
      * split; [done|]. by intros [_ (out & ? & _)].
  - case_decide as Hfew.
    + split; [|done]. intros _. destruct Hfew as [->|?]; simpl; lia.
    + split; [|intros; exfalso; apply Hfew; lia].
      by destruct (_run_forecast_sync run).
  - intros stdout stderr Hmany Hloud. rewrite decide_False.
    + unfold _run_forecast_sync. by rewrite decide_True by tauto.
    + intros [->|?]; simpl in *; lia.
Qed.

End forecast.

End Forecast.
